(** * pdf_platform: offline PDF keyword search

    A shallow embedding of [pdf_platform.py] and the properties of its
    keyword loader, per-file searcher, aggregator, report writers, path
    resolver and command-line driver.

    Text.  A Python [str] is a sequence of code points.  The development
    covers the Latin-1 block (code points 0..255): a character is an
    [ascii], a [str] is a [list ascii].  Case mapping and white space are
    the Unicode ones restricted to that block.

    Dictionaries.  A Python [dict] iterates in insertion order and
    assigning to a present key keeps the key's position; it is an
    association list with the operations [dict_set], [dict_get].

    Sets.  A Python [set] of page numbers is a [gset nat].

    Exceptions.  Fallible code runs in the [result] monad.

    The outside world.  What the program reads is a [filesystem]: the
    nodes at each path, with what [read_text] and the PDF reader make of a
    file.  What it prints and writes is a trace of [event]s, built in the
    [io] monad.  The writers see the tree as the events so far have left
    it, and raise where [mkdir] and [open] do: for a destination that is
    a directory, or whose way leads through a regular file.  The tree has
    no permissions, quotas or links; the exception classes are those of
    POSIX. *)

From Stdlib Require Import Ascii String DecimalFacts DecimalNat.
From stdpp Require Import base list gmap strings sorting.

#[local] Set Warnings "-clear-no-such-hyp,-register-all".

(** String literals of the development: [py "abc"] is the [str] "abc". *)
Definition py (s : string) : list ascii := list_ascii_of_string s.

Definition chr (n : nat) : ascii := ascii_of_nat n.
Definition ord (c : ascii) : nat := nat_of_ascii c.

(** ** Characters *)

(** [str.lower] and the case folding of [re.IGNORECASE] on one code point
    of the Latin-1 block: A-Z and U+00C0..U+00DE (without the
    multiplication sign U+00D7) move up by 32. *)
Definition is_upper (c : ascii) : bool :=
  let n := ord c in
  ((65 <=? n) && (n <=? 90)) || ((192 <=? n) && (n <=? 222) && negb (n =? 215)).

Definition lower_char (c : ascii) : ascii :=
  if is_upper c then chr (ord c + 32) else c.

(** [s.lower()] *)
Definition lower (s : list ascii) : list ascii := lower_char <$> s.

(** [c.isspace()]: TAB..CR, FS..US, space, NEL and NBSP. *)
Definition isspace (c : ascii) : bool :=
  let n := ord c in
  ((9 <=? n) && (n <=? 13)) || ((28 <=? n) && (n <=? 32)) || (n =? 133) || (n =? 160).

Definition is_ascii_alnum (c : ascii) : bool :=
  let n := ord c in
  ((48 <=? n) && (n <=? 57)) || ((65 <=? n) && (n <=? 90)) || ((97 <=? n) && (n <=? 122)).

(** ** Exceptions *)

Inductive error : Type :=
  | FileNotFoundError
  | FileExistsError
  | NotADirectoryError
  | IsADirectoryError
  | ValueError
  | KeyError
  | UnicodeDecodeError
  | PdfReadError          (* PdfReader could not open or parse the file *)
  | ReError               (* re.compile rejected the pattern *)
  | UsageError.           (* argparse exits with status 2 *)

Inductive result (A : Type) : Type :=
  | Ok (a : A)
  | Raise (e : error).
Arguments Ok {A} a.
Arguments Raise {A} e.

Global Instance result_ret : MRet result := λ A a, Ok a.
Global Instance result_bind : MBind result := λ A B f m,
  match m with
  | Ok a => f a
  | Raise e => Raise e
  end.

(** ** Ordered dictionaries *)

Section dict.
Context {V : Type}.
Implicit Types (k : list ascii) (d : list (list ascii * V)).

(** [d[k] = v] *)
Fixpoint dict_set k (v : V) d : list (list ascii * V) :=
  match d with
  | [] => [(k, v)]
  | (k', v') :: d' =>
      if decide (k' = k) then (k', v) :: d' else (k', v') :: dict_set k v d'
  end.

(** [d.get(k)] *)
Fixpoint dict_get k d : option V :=
  match d with
  | [] => None
  | (k', v') :: d' => if decide (k' = k) then Some v' else dict_get k d'
  end.

(** [d[k]] *)
Definition dict_item k d : result V :=
  match dict_get k d with
  | Some v => Ok v
  | None => Raise KeyError
  end.

(** [list(d.keys())], [list(d.items())] is [d] itself *)
Definition dict_keys d : list (list ascii) := fst <$> d.

(** [{k: v for (k, v) in items}] *)
Definition dict_of_items (items : list (list ascii * V)) : list (list ascii * V) :=
  foldl (λ d kv, dict_set kv.1 kv.2 d) [] items.
End dict.

(** The keys of a list in the order of their first occurrence. *)
Fixpoint first_occurrences (l : list (list ascii)) : list (list ascii) :=
  match l with
  | [] => []
  | x :: l' => x :: filter (λ y, y ≠ x) (first_occurrences l')
  end.

(** ** [sorted]: a stable sort, by the [<] of the elements *)

Section sorted.
Context {A : Type} (lt : A → A → bool).

(** [x] goes before the first element it is less than, so after the
    elements equal to it. *)
Fixpoint insert_sorted (x : A) (l : list A) : list A :=
  match l with
  | [] => [x]
  | y :: l' => if lt x y then x :: y :: l' else y :: insert_sorted x l'
  end.

Definition sorted (l : list A) : list A :=
  foldl (λ acc x, insert_sorted x acc) [] l.
End sorted.

(** ** Paths and the file system *)

(** A path is its sequence of parts; [Path(".")] has none. *)
Definition path_name (p : list (list ascii)) : list ascii := default [] (last p).

Definition dot : ascii := chr 46.

(** [s.rfind(c)], [None] for -1. *)
Fixpoint rfind_from (c : ascii) (s : list ascii) (i : nat) (found : option nat) : option nat :=
  match s with
  | [] => found
  | x :: s' => rfind_from c s' (S i) (if decide (x = c) then Some i else found)
  end.

Definition rfind (c : ascii) (s : list ascii) : option nat := rfind_from c s 0 None.

(** [p.suffix]: the name from its last dot on, when that dot is neither
    the first nor the last character of the name. *)
Definition suffix (p : list (list ascii)) : list ascii :=
  let name := path_name p in
  match rfind dot name with
  | Some i => if (0 <? i) && (i <? length name - 1) then drop i name else []
  | None => []
  end.

(** [sep.join(l)] *)
Fixpoint join (sep : list ascii) (l : list (list ascii)) : list ascii :=
  match l with
  | [] => []
  | [x] => x
  | x :: l' => x ++ sep ++ join sep l'
  end.

Definition slash : ascii := chr 47.

(** [str(p)] *)
Definition path_str (p : list (list ascii)) : list ascii :=
  match p with
  | [] => [dot]
  | root :: rest => if decide (root = [slash]) then slash :: join [slash] rest
                    else join [slash] p
  end.

(** The two path flavours of [pathlib]: they differ in how paths compare. *)
Inductive flavour : Type := Posix | Windows.

(** Lexicographic comparison, as Python compares strings and lists. *)
Fixpoint list_compare {A} (cmp : A → A → comparison) (l1 l2 : list A) : comparison :=
  match l1, l2 with
  | [], [] => Eq
  | [], _ :: _ => Lt
  | _ :: _, [] => Gt
  | x :: l1', y :: l2' =>
      match cmp x y with
      | Eq => list_compare cmp l1' l2'
      | c => c
      end
  end.

Definition str_compare : list ascii → list ascii → comparison :=
  list_compare (λ c1 c2, Nat.compare (ord c1) (ord c2)).

(** The parts as [Path.__lt__] compares them: as they are on POSIX,
    lower-cased on Windows. *)
Definition path_key (f : flavour) (p : list (list ascii)) : list (list ascii) :=
  match f with
  | Posix => p
  | Windows => lower <$> p
  end.

Definition path_lt (f : flavour) (p q : list (list ascii)) : bool :=
  match list_compare str_compare (path_key f p) (path_key f q) with
  | Lt => true
  | _ => false
  end.

(** What [reader.pages[i].extract_text()] does for one page: it raises,
    returns [None], or returns a text. *)
Inductive extraction : Type :=
  | ExtractRaises
  | ExtractNone
  | ExtractText (t : list ascii).

(** What [PdfReader] makes of a file: it raises, or it opens the document
    and gives its pages. *)
Inductive pdf : Type :=
  | Unreadable
  | Readable (pages : list extraction).

(** A node of the file system: a directory with the names of its children
    in the order [iterdir] yields them, or a regular file with the text
    [read_text] returns for it (none if it does not decode) and with what
    the PDF reader makes of it. *)
Inductive node : Type :=
  | Directory (names : list (list ascii))
  | File (text : option (list ascii)) (doc : pdf).

Record filesystem : Type := Filesystem {
  fs_flavour : flavour;
  fs_node : list (list ascii) → option node
}.

(** [p.exists()] *)
Definition path_exists (fs : filesystem) (p : list (list ascii)) : bool :=
  bool_decide (is_Some (fs_node fs p)).

(** [p.read_text(encoding="utf-8")] *)
Definition read_text (fs : filesystem) (p : list (list ascii)) : result (list ascii) :=
  match fs_node fs p with
  | Some (File (Some text) _) => Ok text
  | Some (File None _) => Raise UnicodeDecodeError
  | Some (Directory _) => Raise IsADirectoryError
  | None => Raise FileNotFoundError
  end.

(** [list(p.iterdir())] *)
Definition iterdir (fs : filesystem) (p : list (list ascii)) : result (list (list (list ascii))) :=
  match fs_node fs p with
  | Some (Directory names) => Ok ((λ n, p ++ [n]) <$> names)
  | Some (File _ _) => Raise NotADirectoryError
  | None => Raise FileNotFoundError
  end.

(** [PdfReader(str(p)).pages]: the reader raises, or gives the pages, each
    with what [extract_text] does on it. *)
Definition PdfReader (fs : filesystem) (p : list (list ascii)) : result (list extraction) :=
  match fs_node fs p with
  | Some (File _ (Readable pages)) => Ok pages
  | Some (File _ Unreadable) => Raise PdfReadError
  | Some (Directory _) => Raise IsADirectoryError
  | None => Raise FileNotFoundError
  end.

(** ** [load_keywords] *)

Definition newline : ascii := chr 10.
Definition comma : ascii := chr 44.

(** The character class [[\n,]]. *)
Definition is_separator (c : ascii) : bool :=
  bool_decide (c = newline) || bool_decide (c = comma).

(** [re.split(r"[\n,]+", text)], scanning from the left: [cur] is the
    piece being read, [in_run] tells that the previous character was a
    separator.  A run of separators ends one piece; the text before the
    first run and after the last one are pieces too, empty or not. *)
Fixpoint re_split_from (text cur : list ascii) (in_run : bool) : list (list ascii) :=
  match text with
  | [] => [cur]
  | c :: text' =>
      if is_separator c then
        if in_run then re_split_from text' cur true
        else cur :: re_split_from text' [] true
      else re_split_from text' (cur ++ [c]) false
  end.

Definition re_split (text : list ascii) : list (list ascii) :=
  re_split_from text [] false.

Fixpoint drop_while (p : ascii → bool) (s : list ascii) : list ascii :=
  match s with
  | [] => []
  | c :: s' => if p c then drop_while p s' else s
  end.

(** [s.strip()] *)
Definition lstrip (s : list ascii) : list ascii := drop_while isspace s.
Definition rstrip (s : list ascii) : list ascii := reverse (drop_while isspace (reverse s)).
Definition strip (s : list ascii) : list ascii := rstrip (lstrip s).

Definition load_keywords (fs : filesystem) (path : list (list ascii))
    : result (list (list ascii)) :=
  text ← read_text fs path;
  let raw := re_split text in
  let keywords := strip <$> filter (λ k, strip k ≠ []) raw in
  Ok keywords.

(** The loader in the words of its contract: the pieces of the text
    between separators, each trimmed, the empty ones dropped. *)
Fixpoint pieces (text : list ascii) : list (list ascii) :=
  match text with
  | [] => [[]]
  | c :: text' =>
      if is_separator c then [] :: pieces text'
      else match pieces text' with
           | p :: ps => (c :: p) :: ps
           | [] => [[c]]
           end
  end.

Definition keywords_of_text (text : list ascii) : list (list ascii) :=
  filter (λ k, k ≠ []) (strip <$> pieces text).

(** The text read so far, put in front of the first piece of the rest. *)
Definition prepend (cur : list ascii) (ps : list (list ascii)) : list (list ascii) :=
  match ps with
  | p :: ps' => (cur ++ p) :: ps'
  | [] => [cur]
  end.

Definition trimmed_nonempty (l : list (list ascii)) : list (list ascii) :=
  filter (λ k, k ≠ []) (strip <$> l).

(** ** The fragment of [re] the program uses *)

(** [re.escape] (Python 3.7 and later): a backslash before each of
    [()[]{}?*+-|^$\.&~#] and before white space. *)
Definition re_special_chars : list ascii :=
  py "()[]{}?*+-|^$\.&~# " ++ [chr 9; chr 10; chr 13; chr 11; chr 12].

Definition backslash : ascii := chr 92.

Definition re_escape (s : list ascii) : list ascii :=
  s ≫= λ c, if decide (c ∈ re_special_chars) then [backslash; c] else [c].

(** The characters the pattern parser reads as operators. *)
Definition re_operators : list ascii := py ".\[{()*+?^$|".

(** A compiled pattern of the literal fragment: the literal characters to
    find, and whether case is ignored. *)
Record pattern : Type := Pattern {
  pat_literals : list ascii;
  pat_ignorecase : bool
}.

(** The parser on the literal fragment: an escaped character that is not
    an ASCII letter or digit, and an unescaped character that is not an
    operator, are literals.  Everything else belongs to the pattern
    language proper, which the program never produces, and is rejected
    here. *)
Fixpoint re_parse (p : list ascii) : option (list ascii) :=
  match p with
  | [] => Some []
  | c :: p' =>
      if decide (c = backslash) then
        match p' with
        | [] => None
        | e :: p'' =>
            if is_ascii_alnum e then None
            else (e ::.) <$> re_parse p''
        end
      else if decide (c ∈ re_operators) then None
      else (c ::.) <$> re_parse p'
  end.

(** [re.compile(p, re.IGNORECASE)]: with the flag, literals are stored
    lower-cased. *)
Definition re_compile (p : list ascii) (ignorecase : bool) : result pattern :=
  match re_parse p with
  | Some lits => Ok (Pattern (if ignorecase then lower lits else lits) ignorecase)
  | None => Raise ReError
  end.

(** Does the literal sequence match at the start of the text? *)
Fixpoint match_here (ic : bool) (lits text : list ascii) : bool :=
  match lits, text with
  | [], _ => true
  | _ :: _, [] => false
  | l :: lits', c :: text' =>
      bool_decide ((if ic then lower_char c else c) = l) && match_here ic lits' text'
  end.

(** [pat.search(text)]: the offset of the leftmost match, if any. *)
Fixpoint re_search_from (pat : pattern) (text : list ascii) (pos : nat) : option nat :=
  if match_here (pat_ignorecase pat) (pat_literals pat) text then Some pos
  else match text with
       | [] => None
       | _ :: text' => re_search_from pat text' (S pos)
       end.

Definition re_search (pat : pattern) (text : list ascii) : option nat :=
  re_search_from pat text 0.

(** ** [search_pdf] *)

(** [{k: set() for k in keywords}] *)
Definition empty_results (keywords : list (list ascii)) : list (list ascii * gset nat) :=
  dict_of_items ((λ k, (k, (∅ : gset nat))) <$> keywords).

(** [{k: re.compile(re.escape(k), re.IGNORECASE) for k in keywords}] *)
Fixpoint compile_patterns (keywords : list (list ascii))
    (acc : list (list ascii * pattern)) : result (list (list ascii * pattern)) :=
  match keywords with
  | [] => Ok acc
  | k :: ks =>
      pat ← re_compile (re_escape k) true;
      compile_patterns ks (dict_set k pat acc)
  end.

(** The [try] block of the page loop: the text of page [i], empty when the
    page is missing, extraction raises, or it returns [None] or the empty
    string. *)
Definition page_text (pages : list extraction) (i : nat) : list ascii :=
  match pages !! i with
  | Some (ExtractText t) => t
  | Some ExtractNone => []
  | Some ExtractRaises => []
  | None => []
  end.

(** [for k, pat in patterns.items(): if pat.search(text): results[k].add(i + 1)] *)
Fixpoint match_page (items : list (list ascii * pattern)) (text : list ascii) (i : nat)
    (results : list (list ascii * gset nat)) : result (list (list ascii * gset nat)) :=
  match items with
  | [] => Ok results
  | (k, pat) :: items' =>
      match re_search pat text with
      | Some _ =>
          pages ← dict_item k results;
          match_page items' text i (dict_set k ({[ i + 1 ]} ∪ pages) results)
      | None => match_page items' text i results
      end
  end.

(** [for i in range(num_pages): ...] *)
Fixpoint scan_pages (pages : list extraction) (patterns : list (list ascii * pattern))
    (range : list nat) (results : list (list ascii * gset nat))
    : result (list (list ascii * gset nat)) :=
  match range with
  | [] => Ok results
  | i :: range' =>
      let text := page_text pages i in
      match text with
      | [] => scan_pages pages patterns range' results
      | _ :: _ =>
          results' ← match_page patterns text i results;
          scan_pages pages patterns range' results'
      end
  end.

Definition search_pdf (fs : filesystem) (file_path : list (list ascii))
    (keywords : list (list ascii)) : result (list (list ascii * list nat)) :=
  let results := empty_results keywords in
  pages ← PdfReader fs file_path;
  let num_pages := length pages in
  patterns ← compile_patterns keywords [];
  results ← scan_pages pages patterns (seq 0 num_pages) results;
  Ok (dict_of_items ((λ kv, (kv.1, sorted Nat.ltb (elements kv.2))) <$> results)).

(** The specification's matcher: the keyword occurs in the text, case
    ignored. *)
Definition occurs_ignoring_case (k text : list ascii) : Prop :=
  ∃ pre mid post, text = pre ++ mid ++ post ∧ lower mid = lower k.

(** The dictionary entry [compile_patterns] makes for a keyword. *)
Definition keyword_pattern (k : list ascii) : list ascii * pattern :=
  (k, Pattern (lower k) true).

(** Page [i] is recorded for keyword [k]: its text is not empty and the
    pattern of [k] finds a match in it. *)
Definition page_hit (pages : list extraction) (patterns : list (list ascii * pattern))
    (k : list ascii) (i : nat) : Prop :=
  page_text pages i ≠ [] ∧
  ∃ pat, (k, pat) ∈ patterns ∧ is_Some (re_search pat (page_text pages i)).

(** ** [run_search] *)

Fixpoint run_search_from (fs : filesystem) (pdf_paths : list (list (list ascii)))
    (keywords : list (list ascii))
    (aggregated : list (list ascii * list (list ascii * list nat)))
    : result (list (list ascii * list (list ascii * list nat))) :=
  match pdf_paths with
  | [] => Ok aggregated
  | p :: pdf_paths' =>
      found ← search_pdf fs p keywords;
      run_search_from fs pdf_paths' keywords (dict_set (path_name p) found aggregated)
  end.

Definition run_search (fs : filesystem) (pdf_paths : list (list (list ascii)))
    (keywords : list (list ascii))
    : result (list (list ascii * list (list ascii * list nat))) :=
  run_search_from fs pdf_paths keywords [].

(** ** [gather_pdf_paths] *)

Definition gather_pdf_paths (fs : filesystem)
    (pdf_dir pdf_file : option (list (list ascii))) : result (list (list (list ascii))) :=
  match pdf_file with
  | Some file =>
      if negb (path_exists fs file) then Raise FileNotFoundError
      else Ok [file]
  | None =>
      match pdf_dir with
      | Some dir =>
          if negb (path_exists fs dir) then Raise FileNotFoundError
          else
            children ← iterdir fs dir;
            Ok (sorted (path_lt (fs_flavour fs))
                  (filter (λ p, lower (suffix p) = py ".pdf") children))
      | None => Raise ValueError
      end
  end.

(** ** Decimal numbers: [str(n)] and [int(s)] *)

Definition digit_char (d : nat) : ascii := chr (48 + d).

Fixpoint uint_chars (d : Decimal.uint) : list ascii :=
  match d with
  | Decimal.Nil => []
  | Decimal.D0 d => digit_char 0 :: uint_chars d
  | Decimal.D1 d => digit_char 1 :: uint_chars d
  | Decimal.D2 d => digit_char 2 :: uint_chars d
  | Decimal.D3 d => digit_char 3 :: uint_chars d
  | Decimal.D4 d => digit_char 4 :: uint_chars d
  | Decimal.D5 d => digit_char 5 :: uint_chars d
  | Decimal.D6 d => digit_char 6 :: uint_chars d
  | Decimal.D7 d => digit_char 7 :: uint_chars d
  | Decimal.D8 d => digit_char 8 :: uint_chars d
  | Decimal.D9 d => digit_char 9 :: uint_chars d
  end.

(** [str(n)] *)
Definition str_of_nat (n : nat) : list ascii := uint_chars (Nat.to_uint n).

Definition is_digit (c : ascii) : bool := (48 <=? ord c) && (ord c <=? 57).

(** The digits at the start of [s], as a decimal number, and the rest. *)
Fixpoint read_digits (s : list ascii) : Decimal.uint * list ascii :=
  match s with
  | [] => (Decimal.Nil, [])
  | c :: s' =>
      if is_digit c then
        let '(d, rest) := read_digits s' in
        (match ord c - 48 with
         | 0 => Decimal.D0 d | 1 => Decimal.D1 d | 2 => Decimal.D2 d
         | 3 => Decimal.D3 d | 4 => Decimal.D4 d | 5 => Decimal.D5 d
         | 6 => Decimal.D6 d | 7 => Decimal.D7 d | 8 => Decimal.D8 d
         | _ => Decimal.D9 d
         end, rest)
      else (Decimal.Nil, s)
  end.

(** [int(s)] on a string of digits; anything else is rejected. *)
Definition int_of_str (s : list ascii) : option nat :=
  match s, read_digits s with
  | _ :: _, (d, []) => Some (Nat.of_uint d)
  | _, _ => None
  end.

(** ** Python values and JSON *)

(** The values [json.dumps] is given and [json.loads] returns, for the
    fragment of JSON the reports use: non-negative integers, strings,
    arrays and objects. *)
Inductive pyval : Type :=
  | PInt (n : nat)
  | PStr (s : list ascii)
  | PList (items : list pyval)
  | PDict (items : list (list ascii * pyval)).

(** The aggregate report as a Python value. *)
Definition pages_value (pages : list nat) : pyval := PList (PInt <$> pages).
Definition mapping_value (m : list (list ascii * list nat)) : pyval :=
  PDict ((λ kv, (kv.1, pages_value kv.2)) <$> m).
Definition report_value (data : list (list ascii * list (list ascii * list nat))) : pyval :=
  PDict ((λ kv, (kv.1, mapping_value kv.2)) <$> data).

Definition quote : ascii := chr 34.

Definition hex_char (d : nat) : ascii :=
  if d <? 10 then chr (48 + d) else chr (87 + d).

(** One character of a JSON string, [ensure_ascii=False]: the quote, the
    backslash and the control characters are escaped, nothing else. *)
Definition json_escape_char (c : ascii) : list ascii :=
  let n := ord c in
  if decide (c = quote) then [backslash; quote]
  else if decide (c = backslash) then [backslash; backslash]
  else if n =? 10 then backslash :: py "n"
  else if n =? 13 then backslash :: py "r"
  else if n =? 9 then backslash :: py "t"
  else if n =? 8 then backslash :: py "b"
  else if n =? 12 then backslash :: py "f"
  else if n <? 32 then backslash :: py "u00" ++ [hex_char (n / 16); hex_char (n mod 16)]
  else [c].

Definition json_string (s : list ascii) : list ascii :=
  quote :: (s ≫= json_escape_char) ++ [quote].

(** A new line and the indentation of a nesting level, [indent=2]. *)
Definition newline_indent (level : nat) : list ascii :=
  newline :: replicate (2 * level) (chr 32).

(** [json.dumps(v, indent=2, ensure_ascii=False)], at a nesting level. *)
Fixpoint json_encode (level : nat) (v : pyval) : list ascii :=
  match v with
  | PInt n => str_of_nat n
  | PStr s => json_string s
  | PList [] => py "[]"
  | PList items =>
      py "[" ++ newline_indent (S level)
        ++ join (comma :: newline_indent (S level)) (json_encode (S level) <$> items)
        ++ newline_indent level ++ py "]"
  | PDict [] => py "{}"
  | PDict items =>
      py "{" ++ newline_indent (S level)
        ++ join (comma :: newline_indent (S level))
             ((λ kv, json_string kv.1 ++ py ": " ++ json_encode (S level) kv.2) <$> items)
        ++ newline_indent level ++ py "}"
  end.

Definition json_dumps (v : pyval) : list ascii := json_encode 0 v.

(** [json.loads] *)

Definition is_json_ws (c : ascii) : bool :=
  let n := ord c in (n =? 32) || (n =? 9) || (n =? 10) || (n =? 13).

Definition skip_ws (s : list ascii) : list ascii := drop_while is_json_ws s.

Definition hex_value (c : ascii) : option nat :=
  let n := ord c in
  if (48 <=? n) && (n <=? 57) then Some (n - 48)
  else if (97 <=? n) && (n <=? 102) then Some (n - 87)
  else if (65 <=? n) && (n <=? 70) then Some (n - 55)
  else None.

(** The character an escape letter stands for. *)
Definition json_unescape (e : ascii) : option ascii :=
  if decide (e = quote) then Some quote
  else if decide (e = backslash) then Some backslash
  else if decide (e = slash) then Some slash
  else if decide (e = "b"%char) then Some (chr 8)
  else if decide (e = "f"%char) then Some (chr 12)
  else if decide (e = "n"%char) then Some newline
  else if decide (e = "r"%char) then Some (chr 13)
  else if decide (e = "t"%char) then Some (chr 9)
  else None.

(** [scanstring], from just after the opening quote: the string and the
    text after its closing quote.  A raw control character and an unknown
    escape are errors; so is, here, a [\u] escape beyond the Latin-1
    block. *)
Fixpoint scanstring (s : list ascii) : option (list ascii * list ascii) :=
  match s with
  | [] => None
  | c :: s' =>
      if decide (c = quote) then Some ([], s')
      else if decide (c = backslash) then
        match s' with
        | [] => None
        | e :: s'' =>
            if decide (e = "u"%char) then
              match s'' with
              | h1 :: h2 :: h3 :: h4 :: s''' =>
                  x1 ← hex_value h1; x2 ← hex_value h2;
                  x3 ← hex_value h3; x4 ← hex_value h4;
                  if (x1 =? 0) && (x2 =? 0) then
                    '(str, rest) ← scanstring s''';
                    Some (chr (16 * x3 + x4) :: str, rest)
                  else None
              | _ => None
              end
            else
              x ← json_unescape e;
              '(str, rest) ← scanstring s'';
              Some (x :: str, rest)
        end
      else if ord c <? 32 then None
      else '(str, rest) ← scanstring s'; Some (c :: str, rest)
  end.

(** A number, at a digit: [0], or digits not starting with 0; a fraction
    or an exponent after it makes a float, outside the fragment. *)
Definition scan_number (s : list ascii) : option (nat * list ascii) :=
  match s with
  | [] => None
  | c :: s' =>
      let '(n, rest) :=
        if decide (c = digit_char 0) then (0, s')
        else let '(d, rest) := read_digits s in (Nat.of_uint d, rest) in
      match rest with
      | c :: _ => if decide (c ∈ py ".eE") then None else Some (n, rest)
      | [] => Some (n, rest)
      end
  end.

(** [scan_once], [JSONObject] and [JSONArray].  The recursion is bounded
    by [fuel]; [json_loads] gives it the length of the text. *)
Fixpoint scan_once (fuel : nat) (s : list ascii) : option (pyval * list ascii) :=
  match fuel with
  | 0 => None
  | S fuel =>
      match s with
      | [] => None
      | c :: s' =>
          if decide (c = quote) then
            '(str, rest) ← scanstring s'; Some (PStr str, rest)
          else if decide (c = "{"%char) then
            match skip_ws s' with
            | c1 :: s1 =>
                if decide (c1 = "}"%char) then Some (PDict [], s1)
                else if decide (c1 = quote) then scan_members fuel s1 []
                else None
            | [] => None
            end
          else if decide (c = "["%char) then
            match skip_ws s' with
            | c1 :: s1 =>
                if decide (c1 = "]"%char) then Some (PList [], s1)
                else scan_items fuel (c1 :: s1) []
            | [] => None
            end
          else if is_digit c then
            '(n, rest) ← scan_number s; Some (PInt n, rest)
          else None
      end
  end
with scan_members (fuel : nat) (s : list ascii) (pairs : list (list ascii * pyval))
    : option (pyval * list ascii) :=
  match fuel with
  | 0 => None
  | S fuel =>
      '(key, s1) ← scanstring s;
      match skip_ws s1 with
      | c :: s2 =>
          if decide (c = ":"%char) then
            '(value, s3) ← scan_once fuel (skip_ws s2);
            let pairs := pairs ++ [(key, value)] in
            match skip_ws s3 with
            | c1 :: s4 =>
                if decide (c1 = "}"%char) then Some (PDict (dict_of_items pairs), s4)
                else if decide (c1 = comma) then
                  match skip_ws s4 with
                  | c2 :: s5 =>
                      if decide (c2 = quote) then scan_members fuel s5 pairs else None
                  | [] => None
                  end
                else None
            | [] => None
            end
          else None
      | [] => None
      end
  end
with scan_items (fuel : nat) (s : list ascii) (values : list pyval)
    : option (pyval * list ascii) :=
  match fuel with
  | 0 => None
  | S fuel =>
      '(value, s1) ← scan_once fuel s;
      let values := values ++ [value] in
      match skip_ws s1 with
      | c :: s2 =>
          if decide (c = "]"%char) then Some (PList values, s2)
          else if decide (c = comma) then scan_items fuel (skip_ws s2) values
          else None
      | [] => None
      end
  end.

Definition json_loads (s : list ascii) : option pyval :=
  '(v, rest) ← scan_once (length s) (skip_ws s);
  match skip_ws rest with
  | [] => Some v
  | _ :: _ => None
  end.


(** ** Effects of the command-line driver *)

(** What a run does to the outside world, in order.  [csv.writer] is
    modelled at the level of the rows handed to [writerow]. *)
Inductive event : Type :=
  | Print (line : list ascii)
  | Mkdir (dir : list (list ascii))
  | WriteText (file : list (list ascii)) (content : list ascii)
  | WriteRows (file : list (list ascii)) (rows : list (list (list ascii))).

(** A computation that may raise and that adds to the trace of events. *)
Definition io (A : Type) : Type := list event → result A * list event.

Global Instance io_ret : MRet io := λ A a trace, (Ok a, trace).
Global Instance io_bind : MBind io := λ A B f m trace,
  match m trace with
  | (Ok a, trace') => f a trace'
  | (Raise e, trace') => (Raise e, trace')
  end.

Definition lift {A} (r : result A) : io A := λ trace, (r, trace).
Definition emit (e : event) : io unit := λ trace, (Ok (), trace ++ [e]).
Definition print (line : list ascii) : io unit := emit (Print line).

(** [p.parent] *)
Definition path_parent (p : list (list ascii)) : list (list ascii) :=
  match p with
  | [] => []
  | [root] => if decide (root = [slash]) then p else []
  | _ => removelast p
  end.

(** ** The tree the writers see *)

(** What is at a path: a directory or a regular file. *)
Inductive kind : Type := Dir | Reg.

Definition kind_of (n : node) : kind :=
  match n with
  | Directory _ => Dir
  | File _ _ => Reg
  end.

(** The current directory and the root: they always are directories. *)
Definition is_anchor (p : list (list ascii)) : bool :=
  bool_decide (p = [] ∨ p = [[slash]]).

(** What an event leaves at each path.  [Mkdir dir] is a successful
    [dir.mkdir(parents=True, exist_ok=True)]: [dir] and the directories
    above it are there afterwards.  A write leaves a regular file. *)
Definition effect (look : list (list ascii) → option kind) (e : event)
    : list (list ascii) → option kind :=
  match e with
  | Print _ => look
  | Mkdir dir => λ p, if bool_decide (p ≠ [] ∧ p `prefix_of` dir) then Some Dir else look p
  | WriteText f _ | WriteRows f _ => λ p, if bool_decide (p = f) then Some Reg else look p
  end.

(** The tree after a trace of events, from the file system the run
    started in. *)
Definition tree_after (fs : filesystem) (trace : list event) (p : list (list ascii))
    : option kind :=
  if is_anchor p then Some Dir
  else foldl effect (λ q, kind_of <$> fs_node fs q) trace p.

(** [dir.mkdir(parents=True, exist_ok=True)], walking down from the top:
    [above] is the part of the path known to be a directory.  A directory
    that is there is passed ([exist_ok]); from the first part that is
    missing on, the directories are made ([parents]); a regular file in
    the way makes [os.mkdir] fail, with [FileExistsError] when it is at
    [dir] itself and [NotADirectoryError] when it is above. *)
Fixpoint mkdir_from (look : list (list ascii) → option kind)
    (above todo : list (list ascii)) : result unit :=
  match todo with
  | [] => Ok ()
  | part :: rest =>
      match look (above ++ [part]) with
      | Some Dir => mkdir_from look (above ++ [part]) rest
      | Some Reg => Raise (match rest with
                           | [] => FileExistsError
                           | _ :: _ => NotADirectoryError
                           end)
      | None => Ok ()
      end
  end.

(** [open(p, "w")]: a regular file is truncated, a missing one made in
    its directory; a directory cannot be opened for writing. *)
Definition open_w (look : list (list ascii) → option kind) (p : list (list ascii))
    : result unit :=
  match look p with
  | Some Dir => Raise IsADirectoryError
  | Some Reg => Ok ()
  | None =>
      match look (path_parent p) with
      | Some Dir => Ok ()
      | Some Reg => Raise NotADirectoryError
      | None => Raise FileNotFoundError
      end
  end.

(** An operation on the tree: it raises, and the trace stays as it is,
    or it is done, and its event joins the trace. *)
Definition perform (fs : filesystem)
    (check : (list (list ascii) → option kind) → result unit) (e : event) : io unit :=
  λ trace,
    match check (tree_after fs trace) with
    | Ok _ => (Ok (), trace ++ [e])
    | Raise err => (Raise err, trace)
    end.

(** [dir.mkdir(parents=True, exist_ok=True)] *)
Definition mkdir (fs : filesystem) (dir : list (list ascii)) : io unit :=
  perform fs (λ look, mkdir_from look [] dir) (Mkdir dir).

(** [p.write_text(content, encoding="utf-8")]; a text of the development
    always encodes. *)
Definition write_text (fs : filesystem) (p : list (list ascii)) (content : list ascii)
    : io unit :=
  perform fs (λ look, open_w look p) (WriteText p content).

(** [p.open("w", encoding="utf-8", newline="")] and the rows given to
    the [csv.writer] on it. *)
Definition write_rows (fs : filesystem) (p : list (list ascii))
    (rows : list (list (list ascii))) : io unit :=
  perform fs (λ look, open_w look p) (WriteRows p rows).

(** The directories on the way to [dir], [dir] included, from the top. *)
Definition ancestors (dir : list (list ascii)) : list (list (list ascii)) :=
  (λ n, take n dir) <$> seq 1 (length dir).

(** No regular file is in the way to the directory [dir]. *)
Definition free_way (look : list (list ascii) → option kind) (dir : list (list ascii))
    : bool :=
  forallb (λ q, match look q with Some Reg => false | _ => true end) (ancestors dir).

(** A destination that can be written: no regular file is in the way to
    its directory, and it is not itself a directory. *)
Definition writable (look : list (list ascii) → option kind) (p : list (list ascii))
    : bool :=
  free_way look (path_parent p) && match look p with Some Dir => false | _ => true end.

(** ** [write_json] *)

Definition write_json (fs : filesystem)
    (data : list (list ascii * list (list ascii * list nat)))
    (out_path : list (list ascii)) : io unit :=
  mkdir fs (path_parent out_path);;
  write_text fs out_path (json_dumps (report_value data)).

(** ** [write_csv] *)

(** [", ".join(str(p) for p in pages)] *)
Definition pages_csv (pages : list nat) : list ascii :=
  join (py ", ") (str_of_nat <$> pages).

(** The rows [write_csv] hands to the writer, the header first. *)
Definition csv_rows (data : list (list ascii * list (list ascii * list nat)))
    : list (list (list ascii)) :=
  [py "filename"; py "keyword"; py "pages"]
    :: (data ≫= λ '(fname, mapping),
          mapping ≫= λ '(kw, pages), [[fname; kw; pages_csv pages]]).

Definition write_csv (fs : filesystem)
    (data : list (list ascii * list (list ascii * list nat)))
    (out_path : list (list ascii)) : io unit :=
  mkdir fs (path_parent out_path);;
  write_rows fs out_path (csv_rows data).

(** [s.split(sep)] for a non-empty separator, scanning from the left:
    [cur] is the piece being read, [skip] the number of characters of a
    separator just found that are still to be passed over. *)
Fixpoint split_from (sep s cur : list ascii) (skip : nat) : list (list ascii) :=
  match s with
  | [] => [cur]
  | c :: s' =>
      match skip with
      | S skip' => split_from sep s' cur skip'
      | 0 =>
          if bool_decide (sep `prefix_of` s)
          then cur :: split_from sep s' [] (length sep - 1)
          else split_from sep s' (cur ++ [c]) 0
      end
  end.

Definition split (sep s : list ascii) : list (list ascii) := split_from sep s [] 0.

(** Reading a [pages] field back: the empty field is the empty list, any
    other is split on ", " and each piece read as a number. *)
Definition pages_of_csv (field : list ascii) : option (list nat) :=
  match field with
  | [] => Some []
  | _ :: _ => mapM int_of_str (split (py ", ") field)
  end.

(** ** [parse_args] and [main] *)

(** The options given on the command line. *)
Record command_line : Type := CommandLine {
  opt_pdf_dir : option (list (list ascii));
  opt_pdf_file : option (list (list ascii));
  opt_keywords_file : option (list (list ascii));
  opt_output : option (list (list ascii));
  opt_output_csv : option (list (list ascii));
  opt_output_dir : option (list (list ascii))
}.

(** The namespace [parse_args] returns. *)
Record namespace : Type := Namespace {
  pdf_dir : option (list (list ascii));
  pdf_file : option (list (list ascii));
  keywords_file : list (list ascii);
  output : option (list (list ascii));
  output_csv : option (list (list ascii));
  output_dir : option (list (list ascii))
}.

(** [--pdf-dir] and [--pdf-file] form a required, mutually exclusive
    group; [--keywords-file] is required. *)
Definition parse_args (argv : command_line) : result namespace :=
  match opt_pdf_dir argv, opt_pdf_file argv, opt_keywords_file argv with
  | Some _, Some _, _ => Raise UsageError
  | None, None, _ => Raise UsageError
  | _, _, None => Raise UsageError
  | dir, file, Some kw =>
      Ok (Namespace dir file kw (opt_output argv) (opt_output_csv argv) (opt_output_dir argv))
  end.

(** The destinations of the reports: [--output] goes before
    [--output-dir], which goes before [search_results.json] in the
    current directory; there is a CSV report when [--output-csv] or
    [--output-dir] is given. *)
Definition out_json (args : namespace) : list (list ascii) :=
  match output args, output_dir args with
  | Some o, _ => o
  | None, Some d => d ++ [py "search_results.json"]
  | None, None => [py "search_results.json"]
  end.

Definition out_csv (args : namespace) : option (list (list ascii)) :=
  match output_csv args, output_dir args with
  | Some o, _ => Some o
  | None, Some d => Some (d ++ [py "search_results.csv"])
  | None, None => None
  end.

Definition main (fs : filesystem) (argv : command_line) : io unit :=
  args ← lift (parse_args argv);
  keywords ← lift (load_keywords fs (keywords_file args));
  match keywords with
  | [] => print (py "No keywords found in the keywords file.")
  | _ :: _ =>
      pdf_paths ← lift (gather_pdf_paths fs (pdf_dir args) (pdf_file args));
      match pdf_paths with
      | [] => print (py "No PDF files found to search.")
      | _ :: _ =>
          print (py "Searching " ++ str_of_nat (length pdf_paths) ++ py " PDF(s) for "
                   ++ str_of_nat (length keywords) ++ py " keyword(s)...");;
          results ← lift (run_search fs pdf_paths keywords);
          write_json fs results (out_json args);;
          print (py "JSON results written to: " ++ path_str (out_json args));;
          match out_csv args with
          | Some c =>
              write_csv fs results c;;
              print (py "CSV summary written to: " ++ path_str c)
          | None => mret ()
          end
      end
  end.

(** Running the program from an empty trace. *)
Definition run (fs : filesystem) (argv : command_line) : result unit * list event :=
  main fs argv [].

(** The files a trace writes. *)
Definition written_files (trace : list event) : list (list (list ascii)) :=
  trace ≫= λ e, match e with
                 | WriteText f _ => [f]
                 | WriteRows f _ => [f]
                 | _ => []
                 end.


(** ** A sample document *)

(** Three pages, the second one with the word "Invoice". *)
Definition invoice_pages : list extraction :=
  [ExtractText (py "Summary of terms");
   ExtractText (py "Total Invoice amount (USD)");
   ExtractText (py "Appendix")].

Definition invoice_path : list (list ascii) := [py "pdfs"; py "invoice.pdf"].

(** The same document with a second page that cannot be extracted. *)
Definition damaged_pages : list extraction :=
  [ExtractText (py "Invoice 17"); ExtractRaises; ExtractText (py "Paid invoice")].

Definition damaged_path : list (list ascii) := [py "pdfs"; py "damaged.pdf"].

(** A keywords file, an empty one, and a directory without PDF files. *)
Definition sample_keywords : list ascii :=
  py "Alpha, beta" ++ [newline] ++ py "gamma,".

Definition sample_fs : filesystem :=
  Filesystem Posix (λ p,
    if decide (p = invoice_path) then Some (File None (Readable invoice_pages))
    else if decide (p = damaged_path) then Some (File None (Readable damaged_pages))
    else if decide (p = [py "pdfs"]) then
      Some (Directory [py "invoice.pdf"; py "damaged.pdf"])
    else if decide (p = [py "keywords.txt"]) then
      Some (File (Some sample_keywords) Unreadable)
    else if decide (p = [py "empty.txt"]) then Some (File (Some []) Unreadable)
    else if decide (p = [py "notes"]) then Some (Directory [py "readme.txt"])
    else None).


(** The (filename, keyword, pages) entries of an aggregate report, in
    iteration order. *)
Definition report_entries (data : list (list ascii * list (list ascii * list nat)))
    : list (list ascii * list ascii * list nat) :=
  data ≫= λ '(fname, mapping), (λ '(kw, pages), (fname, kw, pages)) <$> mapping.

(** What may follow a number in a text: not a digit, a point or an
    exponent. *)
Definition ends_number (rest : list ascii) : Prop :=
  match rest with
  | [] => True
  | c :: _ => is_digit c = false ∧ c ∉ py ".eE"
  end.


(** The report of searching the two sample documents for "invoice" and
    "terms". *)
Definition sample_report : list (list ascii * list (list ascii * list nat)) :=
  [(py "invoice.pdf", [(py "invoice", [2]); (py "terms", [1])]);
   (py "damaged.pdf", [(py "invoice", [1; 3]); (py "terms", [])])].


(** How two entries of one directory compare: by their names, as they are
    on POSIX, lower-cased on Windows. *)
Definition name_key (f : flavour) (n : list ascii) : list ascii :=
  match f with
  | Posix => n
  | Windows => lower n
  end.

Definition name_lt (f : flavour) (a b : list ascii) : bool :=
  match str_compare (name_key f a) (name_key f b) with
  | Lt => true
  | _ => false
  end.

(** A directory with the files B.pdf, a.PDF and c.txt, on POSIX and on
    Windows. *)
Definition mixed_case_names : list (list ascii) := [py "B.pdf"; py "a.PDF"; py "c.txt"].

Definition mixed_case_fs (f : flavour) : filesystem :=
  Filesystem f (λ p,
    if decide (p = [py "docs"]) then Some (Directory mixed_case_names)
    else if decide (p = [py "docs"; py "B.pdf"]) then Some (File None (Readable []))
    else if decide (p = [py "docs"; py "a.PDF"]) then Some (File None (Readable []))
    else if decide (p = [py "docs"; py "c.txt"]) then Some (File (Some []) Unreadable)
    else None).


(** Command lines over the sample file system: an empty keywords file,
    and a directory without PDF files. *)
Definition argv_no_keywords : command_line :=
  CommandLine (Some [py "pdfs"]) None (Some [py "empty.txt"])
              None None (Some [py "out"]).

Definition argv_no_pdfs : command_line :=
  CommandLine (Some [py "notes"]) None (Some [py "keywords.txt"])
              None None (Some [py "out"]).


(** Every dictionary in the value has distinct keys, as every Python
    [dict] has. *)
Fixpoint keys_distinct (v : pyval) : Prop :=
  match v with
  | PInt _ | PStr _ => True
  | PList items => foldr (λ v P, keys_distinct v ∧ P) True items
  | PDict items =>
      NoDup items.*1 ∧ foldr (λ kv P, keys_distinct kv.2 ∧ P) True items
  end.

(** A value is read back from its encoding, at any nesting level and
    before any text that does not continue a number. *)
Definition reads_back (v : pyval) : Prop :=
  ∀ level fuel rest,
    length (json_encode level v) ≤ fuel → ends_number rest →
    scan_once fuel (json_encode level v ++ rest) = Some (v, rest).


(** One member of an encoded object: the key, a colon and a space, the
    value. *)
Definition json_member (level : nat) (kv : list ascii * pyval) : list ascii :=
  json_string kv.1 ++ py ": " ++ json_encode level kv.2.


(** ** Further sample inputs *)

(** A file system holding one text file, [keywords.txt]. *)
Definition keywords_path : list (list ascii) := [py "keywords.txt"].

Definition text_file_fs (text : list ascii) : filesystem :=
  Filesystem Posix (λ p,
    if decide (p = keywords_path) then Some (File (Some text) Unreadable) else None).

(** A character the loader never keeps at the edge of a keyword: a
    separator or white space. *)
Definition is_blank (c : ascii) : bool := is_separator c || isspace c.

(** A keyword as the loader returns them: not empty, trimmed, without
    separator. *)
Definition well_formed_keyword (k : list ascii) : Prop :=
  k ≠ [] ∧ strip k = k ∧ Forall (λ c, is_separator c = false) k.


(** A file system with several documents: the two sample documents, the
    two bound into one, a document whose pages have no text, one without
    pages, one the reader cannot open, and a second [a.pdf] in a
    subdirectory. *)
Definition blank_pages : list extraction :=
  [ExtractNone; ExtractText []; ExtractRaises].

Definition archive_fs : filesystem :=
  Filesystem Posix (λ p,
    if decide (p = [py "a.pdf"]) then Some (File None (Readable invoice_pages))
    else if decide (p = [py "b.pdf"]) then Some (File None (Readable damaged_pages))
    else if decide (p = [py "ab.pdf"]) then
      Some (File None (Readable (invoice_pages ++ damaged_pages)))
    else if decide (p = [py "blank.pdf"]) then Some (File None (Readable blank_pages))
    else if decide (p = [py "empty.pdf"]) then Some (File None (Readable []))
    else if decide (p = [py "broken.pdf"]) then Some (File None Unreadable)
    else if decide (p = [py "sub"; py "a.pdf"]) then
      Some (File None (Readable damaged_pages))
    else if decide (p = [py "kw.txt"]) then Some (File (Some (py "invoice, terms")) Unreadable)
    else if decide (p = [py "in"]) then
      Some (Directory [py "b.pdf"; py "broken.pdf"; py "a.pdf"])
    else if decide (p = [py "in"; py "a.pdf"]) then
      Some (File None (Readable invoice_pages))
    else if decide (p = [py "in"; py "b.pdf"]) then
      Some (File None (Readable damaged_pages))
    else if decide (p = [py "in"; py "broken.pdf"]) then Some (File None Unreadable)
    else None).

(** An extraction outcome that gives the page loop no text. *)
Definition textless (e : extraction) : Prop :=
  e = ExtractRaises ∨ e = ExtractNone ∨ e = ExtractText [].

(** On POSIX the names are totally ordered: [a] before or equal to [b]
    when [b] is not less than [a]. *)
Definition posix_le (a b : list ascii) : Prop := name_lt Posix b a = false.




Definition report_sample : list (list ascii * list (list ascii * list nat)) :=
  [(py "damaged.pdf", [(py "Alpha", []); (py "beta", []); (py "gamma", [])]);
   (py "invoice.pdf", [(py "Alpha", []); (py "beta", []); (py "gamma", [])])].


(** The complete run again, with the JSON report into [r.json] and the
    CSV report at [notes], which is a directory. *)
Definition argv_csv_directory : command_line :=
  CommandLine (Some [py "pdfs"]) None (Some [py "keywords.txt"])
              (Some [py "r.json"]) (Some [py "notes"]) None.

Definition args_csv_directory : namespace :=
  Namespace (Some [py "pdfs"]) None [py "keywords.txt"]
            (Some [py "r.json"]) (Some [py "notes"]) None.


(** Reading a data row of the CSV report back: the file name, the keyword
    and the page list. *)
Definition entry_of_row (row : list (list ascii))
    : option (list ascii * list ascii * list nat) :=
  match row with
  | [fname; kw; field] => pages ← pages_of_csv field; Some (fname, kw, pages)
  | _ => None
  end.

(** * Properties *)

(** ** The [result] monad *)

Lemma bind_Ok {A B} (f : A → result B) (a : A) : (Ok a ≫= f) = f a.
Proof. reflexivity. Qed.

(** ** Dictionaries *)

Section dict_facts.
Context {V : Type}.
Implicit Types (k : list ascii) (d : list (list ascii * V)).

Lemma dict_keys_set k (v : V) d :
  dict_keys (dict_set k v d) =
    if decide (k ∈ dict_keys d) then dict_keys d else dict_keys d ++ [k].
Proof.
  induction d as [|[k' v'] d IH]; simpl.
  - done.
  - destruct (decide (k' = k)) as [->|Hne]; simpl.
    + rewrite decide_True; [done | by left].
    + rewrite IH.
      destruct (decide (k ∈ dict_keys d)) as [Hin|Hnin].
      * rewrite decide_True; [done | by right].
      * rewrite decide_False; [done |].
        intros [->|?]%elem_of_cons; done.
Qed.

Lemma dict_get_set k k' (v : V) d :
  dict_get k' (dict_set k v d) = if decide (k = k') then Some v else dict_get k' d.
Proof.
  induction d as [|[k0 v0] d IH]; simpl.
  - by destruct (decide (k = k')).
  - destruct (decide (k0 = k)) as [->|Hne]; simpl.
    + by destruct (decide (k = k')).
    + rewrite IH. destruct (decide (k0 = k')) as [->|?]; [|done].
      by rewrite decide_False.
Qed.

Lemma dict_get_is_Some k d : is_Some (dict_get k d) ↔ k ∈ dict_keys d.
Proof.
  induction d as [|[k' v'] d IH]; simpl.
  - split; [by intros [? ?] | by intros ?%elem_of_nil].
  - destruct (decide (k' = k)) as [->|Hne].
    + split; [intros _; by left | eauto].
    + rewrite IH. unfold dict_keys. rewrite elem_of_cons.
      split; [by right | intros [?|?]; [congruence | done]].
Qed.

Lemma dict_get_elem_of k (v : V) d : dict_get k d = Some v → (k, v) ∈ d.
Proof.
  induction d as [|[k' v'] d IH]; simpl; [done |].
  destruct (decide (k' = k)) as [->|Hne].
  - intros [= ->]. by left.
  - intros. right. auto.
Qed.

Lemma dict_elem_of_get k (v : V) d :
  NoDup (dict_keys d) → (k, v) ∈ d → dict_get k d = Some v.
Proof.
  induction d as [|[k' v'] d IH]; simpl.
  - by intros _ ?%elem_of_nil.
  - intros [Hk' Hnd]%NoDup_cons [[= -> ->]|Hin]%elem_of_cons.
    + by rewrite decide_True.
    + rewrite decide_False; [auto |].
      intros ->. apply Hk'. by apply (list_elem_of_fmap_2 fst _ (k, v)).
Qed.

Lemma dict_set_fresh k (v : V) d :
  k ∉ dict_keys d → dict_set k v d = d ++ [(k, v)].
Proof.
  induction d as [|[k' v'] d IH]; simpl; [done |].
  intros Hnin. rewrite decide_False.
  - rewrite IH; [done |]. intros ?. apply Hnin. by right.
  - intros ->. apply Hnin. by left.
Qed.

Lemma dict_of_items_from (acc items : list (list ascii * V)) :
  NoDup (dict_keys (acc ++ items)) →
  foldl (λ d kv, dict_set kv.1 kv.2 d) acc items = acc ++ items.
Proof.
  revert acc. induction items as [|[k v] items IH]; intros acc Hnd; simpl.
  - by rewrite app_nil_r.
  - rewrite dict_set_fresh.
    + rewrite IH; rewrite <-app_assoc; done.
    + unfold dict_keys in Hnd. rewrite fmap_app in Hnd.
      apply NoDup_app in Hnd as (_ & Hdisj & _).
      intros Hin. apply (Hdisj _ Hin). by left.
Qed.

(** A comprehension over items with distinct keys is the items. *)
Lemma dict_of_items_NoDup (items : list (list ascii * V)) :
  NoDup (dict_keys items) → dict_of_items items = items.
Proof. intros. unfold dict_of_items. by rewrite dict_of_items_from. Qed.
End dict_facts.

Lemma filter_all {A} (P : A → Prop) `{∀ x, Decision (P x)} (l : list A) :
  Forall P l → filter P l = l.
Proof.
  induction 1 as [|x l Hx Hl IH]; [done |].
  by rewrite filter_cons_True, IH.
Qed.

Lemma elem_of_first_occurrences (x : list ascii) l :
  x ∈ first_occurrences l ↔ x ∈ l.
Proof.
  induction l as [|y l IH]; simpl; [done |].
  rewrite !elem_of_cons, list_elem_of_filter, IH.
  destruct (decide (x = y)); naive_solver.
Qed.

Lemma NoDup_first_occurrences l : NoDup (first_occurrences l).
Proof.
  induction l as [|y l IH]; simpl; [constructor |].
  apply NoDup_cons. split.
  - rewrite list_elem_of_filter. naive_solver.
  - by apply NoDup_filter.
Qed.

Lemma first_occurrences_NoDup l : NoDup l → first_occurrences l = l.
Proof.
  induction 1 as [|x l Hx Hnd IH]; simpl; [done |].
  rewrite IH. f_equal. apply filter_all.
  apply Forall_forall. intros y Hy ->. done.
Qed.

(** The keys of a comprehension are the keys of its items, each at its
    first occurrence. *)
Lemma dict_keys_of_items_from {V} (acc items : list (list ascii * V)) :
  dict_keys (foldl (λ d kv, dict_set kv.1 kv.2 d) acc items) =
    dict_keys acc ++ filter (λ k, k ∉ dict_keys acc) (first_occurrences items.*1).
Proof.
  revert acc. induction items as [|[k v] items IH]; intros acc; simpl.
  - by rewrite app_nil_r.
  - rewrite IH, dict_keys_set. rewrite filter_cons.
    destruct (decide (k ∈ dict_keys acc)) as [Hin|Hnin].
    + rewrite decide_False by naive_solver. f_equal.
      rewrite list_filter_filter. apply list_filter_iff.
      intros y. split; [| naive_solver]. intros Hy. split; [done |].
      intros ->. done.
    + rewrite decide_True by done. rewrite <-app_assoc. simpl. do 2 f_equal.
      rewrite list_filter_filter. apply list_filter_iff.
      intros y. rewrite elem_of_app, list_elem_of_singleton. naive_solver.
Qed.

Lemma dict_keys_of_items {V} (items : list (list ascii * V)) :
  dict_keys (dict_of_items items) = first_occurrences items.*1.
Proof.
  unfold dict_of_items. rewrite dict_keys_of_items_from. simpl.
  apply filter_all, Forall_forall. intros k _. apply not_elem_of_nil.
Qed.

Lemma dict_get_of_items_from {V} (f : list ascii → V) (acc : list (list ascii * V)) ks k :
  dict_get k (foldl (λ d kv, dict_set kv.1 kv.2 d) acc ((λ k, (k, f k)) <$> ks)) =
    if decide (k ∈ ks) then Some (f k) else dict_get k acc.
Proof.
  revert acc. induction ks as [|k' ks IH]; intros acc; simpl; [done |].
  rewrite IH, dict_get_set.
  destruct (decide (k ∈ ks)) as [Hin|Hnin].
  - rewrite decide_True; [done | by right].
  - destruct (decide (k' = k)) as [->|Hne].
    + rewrite decide_True; [done | by left].
    + rewrite decide_False; [done |]. intros [->|?]%elem_of_cons; done.
Qed.

(** ** [sorted] *)

Section sorted_facts.
Context {A : Type} (lt : A → A → bool).

Lemma insert_sorted_Permutation x l : insert_sorted lt x l ≡ₚ x :: l.
Proof.
  induction l as [|y l IH]; simpl; [done |].
  destruct (lt x y); [done |]. rewrite IH. apply Permutation_swap.
Qed.

Lemma sorted_from_Permutation acc l :
  foldl (λ acc x, insert_sorted lt x acc) acc l ≡ₚ acc ++ l.
Proof.
  revert acc. induction l as [|x l IH]; intros acc; simpl.
  - by rewrite app_nil_r.
  - rewrite IH, insert_sorted_Permutation. simpl. apply Permutation_middle.
Qed.

Lemma sorted_Permutation l : sorted lt l ≡ₚ l.
Proof. unfold sorted. by rewrite sorted_from_Permutation. Qed.

Context (lt_asym : ∀ x y, lt x y = true → lt y x = false).

(** In a sorted list no element is less than the one before it. *)
Lemma insert_sorted_Sorted x l :
  Sorted (λ a b, lt b a = false) l → Sorted (λ a b, lt b a = false) (insert_sorted lt x l).
Proof.
  induction l as [|y l IH]; simpl; intros Hs.
  - by repeat constructor.
  - apply Sorted_inv in Hs as [Hs Hhd].
    destruct (lt x y) eqn:Hxy.
    + constructor; [by constructor |]. constructor. by apply lt_asym.
    + constructor; [auto |].
      destruct l as [|z l]; simpl.
      * by constructor.
      * destruct (lt x z); constructor; [done | by inversion Hhd].
Qed.

Lemma sorted_Sorted l : Sorted (λ a b, lt b a = false) (sorted lt l).
Proof.
  unfold sorted. generalize (Sorted_nil (λ a b, lt b a = false)).
  generalize (@nil A). induction l as [|x l IH]; intros acc Hacc; simpl; [done |].
  apply IH. by apply insert_sorted_Sorted.
Qed.
End sorted_facts.

Lemma Sorted_weaken {A} (R1 R2 : relation A) l :
  (∀ x y, R1 x y → R2 x y) → Sorted R1 l → Sorted R2 l.
Proof.
  intros HR. induction 1 as [|x l Hl IH Hhd]; constructor; [done |].
  destruct Hhd; constructor; auto.
Qed.

(** The sorted elements of a set of numbers: strictly ascending. *)
Lemma sorted_elements_lt (s : gset nat) :
  StronglySorted lt (sorted Nat.ltb (elements s)).
Proof.
  assert (Hle : StronglySorted le (sorted Nat.ltb (elements s))).
  { apply Sorted_StronglySorted; [apply _ |].
    eapply Sorted_weaken; [| apply (sorted_Sorted Nat.ltb)].
    - intros a b. rewrite Nat.ltb_ge. lia.
    - intros x y. rewrite Nat.ltb_lt, Nat.ltb_ge. lia. }
  assert (Hnd : NoDup (sorted Nat.ltb (elements s))).
  { rewrite sorted_Permutation. apply NoDup_elements. }
  induction Hle as [|x l Hl IH Hx]; [constructor |].
  apply NoDup_cons in Hnd as [Hxl Hnd].
  constructor; [auto |].
  apply Forall_forall. intros y Hy.
  rewrite Forall_forall in Hx. specialize (Hx y Hy).
  assert (x ≠ y) by (intros ->; done). lia.
Qed.

Lemma elem_of_sorted_elements (s : gset nat) p :
  p ∈ sorted Nat.ltb (elements s) ↔ p ∈ s.
Proof. by rewrite sorted_Permutation, elem_of_elements. Qed.

(** ** Regular expressions *)

Lemma re_special_not_alnum c : c ∈ re_special_chars → is_ascii_alnum c = false.
Proof.
  revert c. apply Forall_forall.
  by apply (bool_decide_unpack (Forall (λ c, is_ascii_alnum c = false) re_special_chars)).
Qed.

Lemma re_operators_special c : c ∈ re_operators → c ∈ re_special_chars.
Proof.
  revert c. apply Forall_forall.
  by apply (bool_decide_unpack (Forall (λ c, c ∈ re_special_chars) re_operators)).
Qed.

(** An escaped keyword parses to the keyword's own characters, all of them
    literals. *)
Lemma re_parse_escape k : re_parse (re_escape k) = Some k.
Proof.
  induction k as [|c k IH]; [done |].
  unfold re_escape in *. rewrite bind_cons.
  destruct (decide (c ∈ re_special_chars)) as [Hs|Hs]; simpl.
  - rewrite (re_special_not_alnum c Hs). by rewrite IH.
  - rewrite decide_False.
    + rewrite decide_False; [by rewrite IH |].
      intros ?%re_operators_special. done.
    + intros ->. apply Hs. by apply (bool_decide_unpack _).
Qed.

Lemma re_compile_escape k :
  re_compile (re_escape k) true = Ok (Pattern (lower k) true).
Proof. unfold re_compile. by rewrite re_parse_escape. Qed.

Lemma match_here_prefix lits text :
  match_here true lits text = true ↔
  ∃ mid post, text = mid ++ post ∧ lower mid = lits.
Proof.
  revert text. induction lits as [|l lits IH]; intros text; simpl.
  - split; [intros _; by exists [], text | done].
  - destruct text as [|c text].
    + split; [done |]. intros (mid & post & Heq & Hl).
      symmetry in Heq. apply app_eq_nil in Heq as [-> _]. done.
    + rewrite andb_true_iff, bool_decide_eq_true, IH. split.
      * intros (<- & mid & post & -> & <-). by exists (c :: mid), post.
      * intros (mid & post & Heq & Hl).
        destruct mid as [|c' mid]; [done |].
        simpl in Heq, Hl. injection Heq as <- ->. injection Hl as <- <-.
        split; [done |]. by exists mid, post.
Qed.

Lemma re_search_from_occurs lits text pos :
  is_Some (re_search_from (Pattern lits true) text pos) ↔
  ∃ pre mid post, text = pre ++ mid ++ post ∧ lower mid = lits.
Proof.
  revert pos. induction text as [|c text IH]; intros pos; simpl.
  - destruct (match_here true lits []) eqn:Hm.
    + apply match_here_prefix in Hm as (mid & post & Heq & Hl).
      split; [intros _ | by eauto]. by exists [], mid, post.
    + split; [by intros [? ?] |]. intros (pre & mid & post & Heq & Hl).
      symmetry in Heq. apply app_eq_nil in Heq as [-> Heq]. simpl in Heq.
      assert (match_here true lits [] = true); [|congruence].
      apply match_here_prefix. by exists mid, post.
  - destruct (match_here true lits (c :: text)) eqn:Hm.
    + apply match_here_prefix in Hm as (mid & post & Heq & Hl).
      split; [intros _ | by eauto]. by exists [], mid, post.
    + rewrite IH. split.
      * intros (pre & mid & post & -> & Hl). by exists (c :: pre), mid, post.
      * intros (pre & mid & post & Heq & Hl).
        destruct pre as [|c' pre].
        -- assert (match_here true lits (c :: text) = true); [|congruence].
           apply match_here_prefix. by exists mid, post.
        -- injection Heq as <- ->. by exists pre, mid, post.
Qed.

(** Searching the compiled keyword is the case-insensitive substring
    test. *)
Lemma re_search_occurs k text :
  is_Some (re_search (Pattern (lower k) true) text) ↔ occurs_ignoring_case k text.
Proof. apply re_search_from_occurs. Qed.

(** ** The per-file searcher *)

Lemma compile_patterns_from ks acc :
  compile_patterns ks acc =
    Ok (foldl (λ d kv, dict_set kv.1 kv.2 d) acc (keyword_pattern <$> ks)).
Proof.
  revert acc. induction ks as [|k ks IH]; intros acc; simpl; [done |].
  rewrite re_compile_escape. simpl. apply IH.
Qed.

Lemma compile_patterns_ok ks :
  compile_patterns ks [] = Ok (dict_of_items (keyword_pattern <$> ks)).
Proof. apply compile_patterns_from. Qed.

Lemma patterns_elem_of ks k pat :
  (k, pat) ∈ dict_of_items (keyword_pattern <$> ks) ↔
  k ∈ ks ∧ pat = Pattern (lower k) true.
Proof.
  pose proof (dict_get_of_items_from (λ k, Pattern (lower k) true) [] ks k) as Hget.
  change (foldl _ [] _) with (dict_of_items (keyword_pattern <$> ks)) in Hget.
  split.
  - intros Hin. apply dict_elem_of_get in Hin.
    + rewrite Hget in Hin. destruct (decide (k ∈ ks)); naive_solver.
    + rewrite dict_keys_of_items. apply NoDup_first_occurrences.
  - intros [Hin ->]. apply dict_get_elem_of. rewrite Hget. by rewrite decide_True.
Qed.

Lemma empty_results_keys ks : dict_keys (empty_results ks) = first_occurrences ks.
Proof.
  unfold empty_results. rewrite dict_keys_of_items.
  rewrite <-list_fmap_compose. by rewrite list_fmap_id.
Qed.

Lemma empty_results_get ks k : k ∈ ks → dict_get k (empty_results ks) = Some ∅.
Proof.
  intros Hin. unfold empty_results, dict_of_items.
  rewrite (dict_get_of_items_from (λ _, ∅)). by rewrite decide_True.
Qed.

Lemma match_page_spec items text i results :
  (∀ k pat, (k, pat) ∈ items → k ∈ dict_keys results) →
  ∃ results', match_page items text i results = Ok results' ∧
    dict_keys results' = dict_keys results ∧
    ∀ k s, dict_get k results = Some s →
      ∃ s', dict_get k results' = Some s' ∧
        ∀ p, p ∈ s' ↔
             p ∈ s ∨ (p = i + 1 ∧ ∃ pat, (k, pat) ∈ items ∧ is_Some (re_search pat text)).
Proof.
  revert results. induction items as [|[k0 pat0] items IH]; intros results Hkeys; simpl.
  - exists results. split_and!; [done | done |].
    intros k s Hs. exists s. split; [done |].
    intros p. split; [by left |]. intros [?|(_ & pat & []%elem_of_nil & _)]. done.
  - assert (Hkeys' : ∀ k pat, (k, pat) ∈ items → k ∈ dict_keys results).
    { intros k pat Hin. apply (Hkeys k pat). by right. }
    destruct (re_search pat0 text) as [off|] eqn:Hsearch.
    + assert (Hk0 : k0 ∈ dict_keys results) by (apply (Hkeys k0 pat0); by left).
      pose proof Hk0 as [s0 Hs0]%dict_get_is_Some.
      unfold dict_item. rewrite Hs0. simpl.
      set (results1 := dict_set k0 ({[i + 1]} ∪ s0) results).
      assert (Hk1 : dict_keys results1 = dict_keys results).
      { unfold results1. rewrite dict_keys_set. by rewrite decide_True. }
      destruct (IH results1) as (results' & Hrun & Hk & Hget).
      { intros k pat Hin. rewrite Hk1. eauto. }
      exists results'. split_and!; [done | congruence |].
      intros k s Hs.
      destruct (decide (k0 = k)) as [->|Hne].
      * destruct (Hget k ({[i + 1]} ∪ s0)) as (s' & Hs' & Hmem).
        { unfold results1. rewrite dict_get_set. by rewrite decide_True. }
        exists s'. split; [done |]. intros p. rewrite Hmem.
        assert (s0 = s) as -> by congruence.
        rewrite elem_of_union, elem_of_singleton. split.
        -- intros [[->|?]|(-> & pat & Hin & Hm)]; [right | by left | right].
           ++ split; [done |]. exists pat0. split; [by left | by rewrite Hsearch].
           ++ split; [done |]. exists pat. split; [by right | done].
        -- intros [?|(-> & pat & Hin & Hm)]; [left; by right |].
           left. by left.
      * destruct (Hget k s) as (s' & Hs' & Hmem).
        { unfold results1. rewrite dict_get_set. by rewrite decide_False. }
        exists s'. split; [done |]. intros p. rewrite Hmem. split.
        -- intros [?|(-> & pat & Hin & Hm)]; [by left | right].
           split; [done |]. exists pat. split; [by right | done].
        -- intros [?|(-> & pat & Hin & Hm)]; [by left | right].
           split; [done |]. exists pat. split; [| done].
           apply elem_of_cons in Hin as [[= ? ?]|?]; [congruence | done].
    + destruct (IH results Hkeys') as (results' & Hrun & Hk & Hget).
      exists results'. split_and!; [done | done |].
      intros k s Hs. destruct (Hget k s Hs) as (s' & Hs' & Hmem).
      exists s'. split; [done |]. intros p. rewrite Hmem. split.
      * intros [?|(-> & pat & Hin & Hm)]; [by left | right].
        split; [done |]. exists pat. split; [by right | done].
      * intros [?|(-> & pat & Hin & Hm)]; [by left | right].
        split; [done |]. exists pat. split; [| done].
        apply elem_of_cons in Hin as [[= <- <-]|?]; [| done].
        rewrite Hsearch in Hm. by destruct Hm.
Qed.

Lemma scan_pages_spec pages patterns range results :
  (∀ k pat, (k, pat) ∈ patterns → k ∈ dict_keys results) →
  ∃ results', scan_pages pages patterns range results = Ok results' ∧
    dict_keys results' = dict_keys results ∧
    ∀ k s, dict_get k results = Some s →
      ∃ s', dict_get k results' = Some s' ∧
        ∀ p, p ∈ s' ↔
             p ∈ s ∨ ∃ i, i ∈ range ∧ p = i + 1 ∧ page_hit pages patterns k i.
Proof.
  revert results. induction range as [|i range IH]; intros results Hkeys; simpl.
  - exists results. split_and!; [done | done |].
    intros k s Hs. exists s. split; [done |].
    intros p. split; [by left |]. intros [?|(i & []%elem_of_nil & _)]. done.
  - destruct (page_text pages i) as [|c text] eqn:Htext.
    + destruct (IH results Hkeys) as (results' & Hrun & Hk & Hget).
      exists results'. split_and!; [done | done |].
      intros k s Hs. destruct (Hget k s Hs) as (s' & Hs' & Hmem).
      exists s'. split; [done |]. intros p. rewrite Hmem. split.
      * intros [?|(j & Hj & -> & Hhit)]; [by left | right].
        exists j. split; [by right | done].
      * intros [?|(j & Hj & -> & Hhit)]; [by left | right].
        exists j. split; [| done].
        apply elem_of_cons in Hj as [->|?]; [| done].
        destruct Hhit as [Hne _]. by rewrite Htext in Hne.
    + destruct (match_page_spec patterns (c :: text) i results Hkeys)
        as (results1 & Hrun1 & Hk1 & Hget1).
      rewrite Hrun1. simpl.
      destruct (IH results1) as (results' & Hrun & Hk & Hget).
      { intros k pat Hin. rewrite Hk1. eauto. }
      exists results'. split_and!; [done | congruence |].
      intros k s Hs. destruct (Hget1 k s Hs) as (s1 & Hs1 & Hmem1).
      destruct (Hget k s1 Hs1) as (s' & Hs' & Hmem).
      exists s'. split; [done |]. intros p. rewrite Hmem, Hmem1. split.
      * intros [[?|(-> & pat & Hin & Hm)]|(j & Hj & -> & Hhit)].
        -- by left.
        -- right. exists i. split; [by left |]. split; [done |].
           unfold page_hit. rewrite Htext. split; [done |]. by exists pat.
        -- right. exists j. split; [by right | done].
      * intros [?|(j & Hj & -> & Hhit)]; [left; by left |].
        apply elem_of_cons in Hj as [->|?].
        -- left. right. split; [done |].
           destruct Hhit as [_ Hhit]. by rewrite Htext in Hhit.
        -- right. by exists j.
Qed.

Lemma dict_get_fmap_values {V W} (f : V → W) k (d : list (list ascii * V)) :
  dict_get k ((λ kv, (kv.1, f kv.2)) <$> d) = f <$> dict_get k d.
Proof.
  induction d as [|[k' v'] d IH]; simpl; [done |].
  by destruct (decide (k' = k)).
Qed.

Lemma dict_keys_fmap_values {V W} (f : V → W) (d : list (list ascii * V)) :
  dict_keys ((λ kv, (kv.1, f kv.2)) <$> d) = dict_keys d.
Proof. unfold dict_keys. rewrite <-list_fmap_compose. done. Qed.

(** What [search_pdf] returns for a file the reader opens: a mapping whose
    keys are the keywords at their first occurrence, each with the
    strictly ascending list of the pages whose text is not empty and
    contains the keyword, case ignored. *)
Lemma search_pdf_spec fs file_path pages keywords :
  PdfReader fs file_path = Ok pages →
  ∃ m, search_pdf fs file_path keywords = Ok m ∧
    dict_keys m = first_occurrences keywords ∧
    ∀ k, k ∈ keywords →
      ∃ ps, dict_get k m = Some ps ∧ StronglySorted lt ps ∧
        ∀ p, p ∈ ps ↔
          ∃ i, i < length pages ∧ p = i + 1 ∧ page_text pages i ≠ [] ∧
               occurs_ignoring_case k (page_text pages i).
Proof.
  intros Hopen.
  pose (to_list := λ s : gset nat, sorted Nat.ltb (elements s)).
  unfold search_pdf. rewrite Hopen. simpl. rewrite compile_patterns_ok. simpl.
  set (patterns := dict_of_items (keyword_pattern <$> keywords)).
  destruct (scan_pages_spec pages patterns (seq 0 (length pages)) (empty_results keywords))
    as (results & Hrun & Hk & Hget).
  { intros k pat [Hin _]%patterns_elem_of.
    rewrite empty_results_keys. by apply elem_of_first_occurrences. }
  rewrite Hrun. simpl. rewrite empty_results_keys in Hk.
  rewrite dict_of_items_NoDup; last first.
  { rewrite (dict_keys_fmap_values to_list), Hk. apply NoDup_first_occurrences. }
  eexists. split_and!; [done | by rewrite (dict_keys_fmap_values to_list) |].
  intros k Hin.
  destruct (Hget k ∅ (empty_results_get _ _ Hin)) as (s & Hs & Hmem).
  exists (sorted Nat.ltb (elements s)).
  rewrite (dict_get_fmap_values to_list), Hs. split_and!; [done | apply sorted_elements_lt |].
  intros p. rewrite elem_of_sorted_elements, Hmem. split.
  - intros [[]%not_elem_of_empty|(i & Hi & -> & Hne & pat & Hpat & Hm)].
    apply patterns_elem_of in Hpat as [_ ->].
    apply elem_of_seq in Hi. exists i. split_and!; [lia | done | done |].
    by apply re_search_occurs.
  - intros (i & Hi & -> & Hne & Hocc). right. exists i.
    split; [apply elem_of_seq; lia |]. split; [done |]. split; [done |].
    exists (Pattern (lower k) true). split; [by apply patterns_elem_of |].
    by apply re_search_occurs.
Qed.

Lemma StronglySorted_lt_NoDup (l : list nat) : StronglySorted lt l → NoDup l.
Proof.
  induction 1 as [|x l Hl IH Hx]; constructor; [| done].
  intros Hin. rewrite Forall_forall in Hx. specialize (Hx x Hin). lia.
Qed.

Lemma occurs_nonempty k text :
  k ≠ [] → occurs_ignoring_case k text → text ≠ [].
Proof.
  intros Hk (pre & mid & post & -> & Hl) Hnil.
  apply app_eq_nil in Hnil as [_ [-> _]%app_eq_nil].
  destruct k; [done | discriminate].
Qed.

Lemma not_occurs_search k text :
  re_search (Pattern (lower k) true) text = None → ¬ occurs_ignoring_case k text.
Proof. intros Hs [? Hm]%re_search_occurs. congruence. Qed.

(** C1: for a document the reader opens and any keyword list,
    [search_pdf] returns a mapping in which every supplied keyword is a
    key, and the value of each is a strictly ascending (so duplicate-free)
    list of page numbers between 1 and the page count, empty when the
    keyword occurs on no page. *)
Theorem search_pdf_keys_and_pages fs file_path pages keywords :
  PdfReader fs file_path = Ok pages →
  ∃ m, search_pdf fs file_path keywords = Ok m ∧
    ∀ k, k ∈ keywords →
      ∃ ps, dict_get k m = Some ps ∧
        StronglySorted lt ps ∧ NoDup ps ∧
        Forall (λ p, 1 ≤ p ≤ length pages) ps ∧
        ((∀ i, ¬ occurs_ignoring_case k (page_text pages i)) → ps = []).
Proof.
  intros Hopen.
  destruct (search_pdf_spec fs file_path pages keywords Hopen) as (m & Hm & _ & Hvals).
  exists m. split; [done |]. intros k Hk.
  destruct (Hvals k Hk) as (ps & Hps & Hsorted & Hmem).
  exists ps. split_and!; [done | done | by apply StronglySorted_lt_NoDup | |].
  - apply Forall_forall. intros p (i & Hi & -> & _)%Hmem. lia.
  - intros Hnone. destruct ps as [|p ps]; [done |].
    destruct (proj1 (Hmem p)) as (i & _ & _ & _ & Hocc); [by left |].
    by destruct (Hnone i).
Qed.

Lemma search_pdf_keys_and_pages_witness :
  ∃ m, search_pdf sample_fs invoice_path [py "invoice"; py "terms"] = Ok m ∧
    ∀ k, k ∈ [py "invoice"; py "terms"] →
      ∃ ps, dict_get k m = Some ps ∧
        StronglySorted lt ps ∧ NoDup ps ∧
        Forall (λ p, 1 ≤ p ≤ length invoice_pages) ps ∧
        ((∀ i, ¬ occurs_ignoring_case k (page_text invoice_pages i)) → ps = []).
Proof.
  apply (search_pdf_keys_and_pages sample_fs invoice_path invoice_pages).
  reflexivity.
Defined.

(** C2: matching is a case-insensitive literal substring test.  The
    escaped keyword compiles to the keyword's own characters, none of them
    an operator, and a page is recorded for a keyword exactly when its
    text is not empty and the keyword occurs in it, case ignored; for a
    keyword that is not the empty string, exactly when the keyword occurs
    in the page's text.  For a 3-page document in which only page 2
    contains "Invoice", searching "invoice" in any case gives that keyword
    with the list [2]. *)
Theorem search_pdf_literal_substring :
  (∀ fs file_path pages keywords k,
     PdfReader fs file_path = Ok pages → k ∈ keywords →
     re_compile (re_escape k) true = Ok (Pattern (lower k) true) ∧
     ∃ m ps, search_pdf fs file_path keywords = Ok m ∧ dict_get k m = Some ps ∧
       (∀ i, i + 1 ∈ ps ↔
             i < length pages ∧ page_text pages i ≠ [] ∧
             occurs_ignoring_case k (page_text pages i)) ∧
       (k ≠ [] →
        ∀ i, i + 1 ∈ ps ↔
             i < length pages ∧ occurs_ignoring_case k (page_text pages i))) ∧
  (∀ fs file_path p1 p2 p3 kw,
     PdfReader fs file_path = Ok [p1; p2; p3] → lower kw = py "invoice" →
     ¬ occurs_ignoring_case kw (page_text [p1; p2; p3] 0) →
     (∃ pre post, page_text [p1; p2; p3] 1 = pre ++ py "Invoice" ++ post) →
     ¬ occurs_ignoring_case kw (page_text [p1; p2; p3] 2) →
     search_pdf fs file_path [kw] = Ok [(kw, [2])]).
Proof.
  split.
  - intros fs file_path pages keywords k Hopen Hk.
    split; [apply re_compile_escape |].
    destruct (search_pdf_spec fs file_path pages keywords Hopen) as (m & Hm & _ & Hvals).
    destruct (Hvals k Hk) as (ps & Hps & _ & Hmem).
    assert (Hgen : ∀ i, i + 1 ∈ ps ↔
                        i < length pages ∧ page_text pages i ≠ [] ∧
                        occurs_ignoring_case k (page_text pages i)).
    { intros i. rewrite Hmem. split.
      - intros (j & Hj & Heq & Hne & Hocc). assert (i = j) as -> by lia. done.
      - intros (Hi & Hne & Hocc). by exists i. }
    exists m, ps. split_and!; [done | done | done |].
    intros Hne i. rewrite Hgen. split; [naive_solver |].
    intros [Hi Hocc]. split_and!; [done | | done].
    by apply (occurs_nonempty k).
  - intros fs file_path p1 p2 p3 kw Hopen Hkw Hp1 (pre & post & Hp2) Hp3.
    destruct (search_pdf_spec fs file_path _ [kw] Hopen) as (m & Hm & Hkeys & Hvals).
    destruct (Hvals kw) as (ps & Hps & Hsorted & Hmem); [by left |].
    rewrite Hm. f_equal.
    assert (Hocc2 : occurs_ignoring_case kw (page_text [p1; p2; p3] 1)).
    { exists pre, (py "Invoice"), post. split; [done |]. by rewrite Hkw. }
    assert (Hps2 : ∀ p, p ∈ ps ↔ p = 2).
    { intros p. rewrite Hmem. split.
      - intros (i & Hi & -> & _ & Hocc).
        destruct i as [|[|[|i]]]; [done | done | done | simpl in Hi; lia].
      - intros ->. exists 1. split_and!; [simpl; lia | done | | done].
        rewrite Hp2. by destruct pre. }
    assert (ps = [2]) as ->.
    { destruct ps as [|p ps].
      - by pose proof (proj2 (Hps2 2) eq_refl) as ?%elem_of_nil.
      - pose proof (proj1 (Hps2 p) ltac:(by left)) as ->.
        destruct ps as [|q ps]; [done |].
        pose proof (proj1 (Hps2 q) ltac:(right; by left)) as ->.
        apply StronglySorted_inv in Hsorted as [_ Hlt].
        apply Forall_inv in Hlt. lia. }
    destruct m as [|[k0 v0] [|? ?]]; [done | | done].
    simpl in Hkeys, Hps. injection Hkeys as ->.
    rewrite decide_True in Hps by done. congruence.
Qed.

Lemma search_pdf_literal_substring_witness :
  (re_compile (re_escape (py "(usd)")) true = Ok (Pattern (lower (py "(usd)")) true) ∧
   ∃ m ps, search_pdf sample_fs invoice_path [py "terms"; py "(usd)"] = Ok m ∧
     dict_get (py "(usd)") m = Some ps ∧
     ∀ i, i + 1 ∈ ps ↔
          i < length invoice_pages ∧
          occurs_ignoring_case (py "(usd)") (page_text invoice_pages i)) ∧
  search_pdf sample_fs invoice_path [py "INVOICE"] = Ok [(py "INVOICE", [2])].
Proof.
  split.
  - destruct (proj1 search_pdf_literal_substring sample_fs invoice_path invoice_pages
                [py "terms"; py "(usd)"] (py "(usd)"))
      as (Hcompile & m & ps & Hm & Hps & _ & Hmem).
    + reflexivity.
    + right. left.
    + split; [exact Hcompile |]. exists m, ps. split_and!; [done | done |].
      apply Hmem. discriminate.
  - apply (proj2 search_pdf_literal_substring sample_fs invoice_path
             (ExtractText (py "Summary of terms"))
             (ExtractText (py "Total Invoice amount (USD)"))
             (ExtractText (py "Appendix")) (py "INVOICE")).
    + reflexivity.
    + reflexivity.
    + apply not_occurs_search. reflexivity.
    + exists (py "Total "), (py " amount (USD)"). reflexivity.
    + apply not_occurs_search. reflexivity.
Defined.

Lemma scan_pages_ext pages pages' patterns range results :
  (∀ i, page_text pages i = page_text pages' i) →
  scan_pages pages patterns range results = scan_pages pages' patterns range results.
Proof.
  intros Hext. revert results.
  induction range as [|i range IH]; intros results; simpl; [done |].
  rewrite <-Hext. destruct (page_text pages i); [done |].
  destruct (match_page _ _ _ _); simpl; [apply IH | done].
Qed.

(** The searcher sees a document only through the number of its pages and
    the text the [try] block gets for each. *)
Lemma search_pdf_ext fs fs' file_path file_path' pages pages' keywords :
  PdfReader fs file_path = Ok pages → PdfReader fs' file_path' = Ok pages' →
  length pages = length pages' →
  (∀ i, page_text pages i = page_text pages' i) →
  search_pdf fs file_path keywords = search_pdf fs' file_path' keywords.
Proof.
  intros Hopen Hopen' Hlen Hext. unfold search_pdf.
  rewrite Hopen, Hopen'. simpl. rewrite <-Hlen.
  destruct (compile_patterns keywords []); simpl; [| done].
  by rewrite (scan_pages_ext pages pages').
Qed.

(** C5: when the extraction of a page raises, [search_pdf] still returns
    its mapping: the failed page is in no keyword's list, every other page
    is recorded exactly as its own text demands, and the whole result is
    the one of the same document with that page's text empty. *)
Theorem search_pdf_page_failure fs file_path pages keywords i :
  PdfReader fs file_path = Ok pages →
  pages !! i = Some ExtractRaises →
  ∃ m, search_pdf fs file_path keywords = Ok m ∧
    (∀ k ps, dict_get k m = Some ps → i + 1 ∉ ps) ∧
    (∀ k, k ∈ keywords →
       ∃ ps, dict_get k m = Some ps ∧
         ∀ j, j ≠ i →
           (j + 1 ∈ ps ↔
            j < length pages ∧ page_text pages j ≠ [] ∧
            occurs_ignoring_case k (page_text pages j))) ∧
    (∀ fs' file_path',
       PdfReader fs' file_path' = Ok (<[i := ExtractText []]> pages) →
       search_pdf fs' file_path' keywords = Ok m).
Proof.
  intros Hopen Hi.
  assert (Htext : page_text pages i = []) by (unfold page_text; by rewrite Hi).
  destruct (search_pdf_spec fs file_path pages keywords Hopen) as (m & Hm & Hkeys & Hvals).
  exists m. split_and!; [done | | |].
  - intros k ps Hps Hin.
    assert (Hk : k ∈ keywords).
    { apply elem_of_first_occurrences. rewrite <-Hkeys.
      apply dict_get_is_Some. by exists ps. }
    destruct (Hvals k Hk) as (ps' & Hps' & _ & Hmem).
    assert (ps' = ps) as -> by congruence.
    apply Hmem in Hin as (j & _ & Heq & Hne & _).
    assert (j = i) as -> by lia. done.
  - intros k Hk. destruct (Hvals k Hk) as (ps & Hps & _ & Hmem).
    exists ps. split; [done |]. intros j _. rewrite Hmem. split.
    + intros (j' & Hj' & Heq & Hne & Hocc). assert (j = j') as -> by lia. done.
    + intros (Hj & Hne & Hocc). by exists j.
  - intros fs' file_path' Hopen'. rewrite <-Hm. symmetry.
    apply (search_pdf_ext fs fs' file_path file_path' pages _ keywords Hopen Hopen').
    + by rewrite length_insert.
    + intros j. unfold page_text. destruct (decide (i = j)) as [->|Hne].
      * rewrite list_lookup_insert_eq; [by rewrite Hi |].
        by apply lookup_lt_Some in Hi.
      * by rewrite list_lookup_insert_ne.
Qed.

Lemma search_pdf_page_failure_witness :
  ∃ m, search_pdf sample_fs damaged_path [py "invoice"] = Ok m ∧
    (∀ k ps, dict_get k m = Some ps → 1 + 1 ∉ ps) ∧
    (∀ k, k ∈ [py "invoice"] →
       ∃ ps, dict_get k m = Some ps ∧
         ∀ j, j ≠ 1 →
           (j + 1 ∈ ps ↔
            j < length damaged_pages ∧ page_text damaged_pages j ≠ [] ∧
            occurs_ignoring_case k (page_text damaged_pages j))) ∧
    (∀ fs' file_path',
       PdfReader fs' file_path' = Ok (<[1 := ExtractText []]> damaged_pages) →
       search_pdf fs' file_path' [py "invoice"] = Ok m).
Proof.
  apply (search_pdf_page_failure sample_fs damaged_path damaged_pages [py "invoice"] 1).
  - reflexivity.
  - reflexivity.
Defined.

(** ** The keyword loader *)

Lemma pieces_nonempty text : pieces text ≠ [].
Proof.
  destruct text as [|c text]; simpl; [done |].
  destruct (is_separator c); [done |]. by destruct (pieces text).
Qed.

(** Splitting on runs of separators and splitting on each separator
    differ only in empty pieces. *)
Lemma re_split_from_pieces text cur in_run :
  (in_run = true → cur = []) →
  trimmed_nonempty (re_split_from text cur in_run) =
    trimmed_nonempty (if in_run then pieces text else prepend cur (pieces text)).
Proof.
  revert cur in_run. induction text as [|c text IH]; intros cur in_run Hcur; simpl.
  - destruct in_run; simpl; [by rewrite Hcur | by rewrite app_nil_r].
  - destruct (is_separator c) eqn:Hsep.
    + destruct in_run.
      * rewrite (IH cur true Hcur). unfold trimmed_nonempty. csimpl.
        by rewrite filter_cons_False by (by intros ?).
      * csimpl. rewrite app_nil_r. unfold trimmed_nonempty in *. csimpl.
        rewrite !filter_cons. by rewrite (IH [] true).
    + rewrite (IH (cur ++ [c]) false) by done.
      pose proof (pieces_nonempty text) as Hne.
      destruct (pieces text) as [|p ps]; [done |]. simpl.
      destruct in_run; [by rewrite Hcur | by rewrite <-app_assoc].
Qed.

Lemma filter_fmap_strip (l : list (list ascii)) :
  strip <$> filter (λ k, strip k ≠ []) l = filter (λ k, k ≠ []) (strip <$> l).
Proof.
  induction l as [|x l IH]; [done |]. csimpl. rewrite !filter_cons.
  destruct (decide (strip x ≠ [])); csimpl; by rewrite IH.
Qed.

Lemma load_keywords_of_text fs path text :
  read_text fs path = Ok text → load_keywords fs path = Ok (keywords_of_text text).
Proof.
  intros Hread. unfold load_keywords. rewrite Hread. simpl. f_equal.
  rewrite filter_fmap_strip. unfold re_split.
  change (trimmed_nonempty (re_split_from text [] false) = keywords_of_text text).
  rewrite (re_split_from_pieces text [] false) by done.
  unfold keywords_of_text, trimmed_nonempty. simpl.
  pose proof (pieces_nonempty text). by destruct (pieces text).
Qed.

Lemma pieces_no_separator text :
  Forall (λ p, Forall (λ c, is_separator c = false) p) (pieces text).
Proof.
  induction text as [|c text IH]; simpl.
  - by repeat constructor.
  - destruct (is_separator c) eqn:Hsep; [by constructor |].
    destruct (pieces text) as [|p ps]; [by repeat constructor |].
    apply Forall_cons in IH as [Hp Hps]. by repeat constructor.
Qed.

Lemma drop_while_suffix p s : drop_while p s `suffix_of` s.
Proof.
  induction s as [|c s IH]; simpl; [done |].
  destruct (p c); [by apply suffix_cons_r | done].
Qed.

Lemma drop_while_head p s c s' : drop_while p s = c :: s' → p c = false.
Proof.
  induction s as [|x s IH]; simpl; [done |].
  destruct (p x) eqn:Hx; [done |]. by intros [= <- <-].
Qed.

Lemma drop_while_fixed p s : (∀ c s', s = c :: s' → p c = false) → drop_while p s = s.
Proof.
  destruct s as [|c s]; [done |]. intros H. simpl. by rewrite (H c s).
Qed.

Lemma drop_while_subseteq p s : drop_while p s ⊆ s.
Proof.
  induction s as [|x s IH]; simpl; [done |].
  destruct (p x); [| done]. intros c Hc. right. by apply IH.
Qed.

Lemma strip_subseteq s : strip s ⊆ s.
Proof.
  unfold strip, rstrip, lstrip. intros c.
  rewrite elem_of_reverse. intros Hc%drop_while_subseteq.
  rewrite elem_of_reverse in Hc. by apply drop_while_subseteq in Hc.
Qed.

(** Trimming a trimmed string changes nothing. *)
Lemma strip_idemp s : strip (strip s) = strip s.
Proof.
  unfold strip, rstrip, lstrip.
  set (u := drop_while isspace s).
  set (w := drop_while isspace (reverse u)).
  assert (Hw : drop_while isspace w = w).
  { apply drop_while_fixed. intros c s' Heq. by apply (drop_while_head _ _ _ _ Heq). }
  assert (Hl : drop_while isspace (reverse w) = reverse w).
  { apply drop_while_fixed. intros c s' Heq.
    destruct (drop_while_suffix isspace (reverse u)) as [pre Hpre]. fold w in Hpre.
    apply (f_equal reverse) in Hpre. rewrite reverse_involutive, reverse_app, Heq in Hpre.
    apply (drop_while_head isspace s c (s' ++ reverse pre)). exact Hpre. }
  by rewrite Hl, reverse_involutive, Hw.
Qed.

Lemma is_separator_false c : is_separator c = false ↔ c ≠ newline ∧ c ≠ comma.
Proof.
  unfold is_separator. rewrite orb_false_iff, !bool_decide_eq_false. done.
Qed.

Lemma keywords_of_text_entries text :
  Forall (λ k, k ≠ [] ∧ strip k = k ∧ (newline ∉ k) ∧ (comma ∉ k)) (keywords_of_text text).
Proof.
  apply Forall_forall. intros k.
  unfold keywords_of_text. rewrite list_elem_of_filter, list_elem_of_fmap.
  intros [Hne (p & -> & Hp)]. split_and!; [done | apply strip_idemp | |].
  - intros Hin%strip_subseteq.
    pose proof (pieces_no_separator text) as Hall.
    rewrite Forall_forall in Hall. specialize (Hall p Hp).
    rewrite Forall_forall in Hall. specialize (Hall _ Hin).
    apply is_separator_false in Hall as [? _]. done.
  - intros Hin%strip_subseteq.
    pose proof (pieces_no_separator text) as Hall.
    rewrite Forall_forall in Hall. specialize (Hall p Hp).
    rewrite Forall_forall in Hall. specialize (Hall _ Hin).
    apply is_separator_false in Hall as [_ ?]. done.
Qed.

(** C3: [load_keywords] returns the pieces of the file's text between
    separators (runs of newlines and commas), trimmed, the empty ones
    dropped, in order.  No entry is empty, every entry is its own
    trimming, and none holds a newline or a comma.  The content
    "Alpha, beta<newline>gamma," gives Alpha, beta, gamma. *)
Theorem load_keywords_contract fs path text :
  read_text fs path = Ok text →
  ∃ keywords, load_keywords fs path = Ok keywords ∧
    keywords = keywords_of_text text ∧
    Forall (λ k, k ≠ [] ∧ strip k ≠ [] ∧ strip k = k ∧ (newline ∉ k) ∧ (comma ∉ k)) keywords ∧
    (text = py "Alpha, beta" ++ [newline] ++ py "gamma," →
     keywords = [py "Alpha"; py "beta"; py "gamma"]).
Proof.
  intros Hread. exists (keywords_of_text text).
  split_and!; [by apply load_keywords_of_text | done | |].
  - eapply Forall_impl; [apply keywords_of_text_entries |].
    intros k (Hne & Hs & ? & ?). split_and!; [done | by rewrite Hs | done..].
  - intros ->. reflexivity.
Qed.

Lemma load_keywords_contract_witness :
  ∃ keywords, load_keywords sample_fs [py "keywords.txt"] = Ok keywords ∧
    keywords = keywords_of_text sample_keywords ∧
    Forall (λ k, k ≠ [] ∧ strip k ≠ [] ∧ strip k = k ∧ (newline ∉ k) ∧ (comma ∉ k)) keywords ∧
    (sample_keywords = py "Alpha, beta" ++ [newline] ++ py "gamma," →
     keywords = [py "Alpha"; py "beta"; py "gamma"]).
Proof.
  apply (load_keywords_contract sample_fs [py "keywords.txt"] sample_keywords).
  reflexivity.
Defined.

(** ** Decimal numbers *)

Lemma read_digits_uint_chars d rest :
  ends_number rest → read_digits (uint_chars d ++ rest) = (d, rest).
Proof.
  intros Hrest. induction d as [|d IH|d IH|d IH|d IH|d IH|d IH|d IH|d IH|d IH|d IH];
    [| cbn [uint_chars app read_digits];
       match goal with |- context [is_digit (digit_char ?k)] =>
         change (is_digit (digit_char k)) with true;
         change (ord (digit_char k) - 48) with k
       end; cbv iota; by rewrite IH ..].
  simpl. destruct rest as [|c rest]; [done |].
  simpl. destruct Hrest as [-> _]. done.
Qed.

Lemma to_uint_unorm n : Decimal.unorm (Nat.to_uint n) = Nat.to_uint n.
Proof.
  rewrite <-(DecimalNat.Unsigned.of_to n) at 2.
  by rewrite DecimalNat.Unsigned.to_of.
Qed.

Lemma to_uint_nonnil n : Nat.to_uint n ≠ Decimal.Nil.
Proof. rewrite <-to_uint_unorm. apply DecimalFacts.unorm_nonnil. Qed.

(** A number is written without leading zeros: only 0 starts with 0. *)
Lemma to_uint_D0 n d : Nat.to_uint n = Decimal.D0 d → n = 0.
Proof.
  intros Heq. pose proof (to_uint_unorm n) as Hn. rewrite Heq in Hn.
  unfold Decimal.unorm in Hn.
  destruct (Decimal.nzhead (Decimal.D0 d)) eqn:Hnz; try discriminate Hn.
  2: { by apply DecimalFacts.nzhead_nonzero in Hnz. }
  injection Hn as <-.
  rewrite <-(DecimalNat.Unsigned.of_to n), Heq. reflexivity.
Qed.

Lemma uint_chars_digits d : Forall (λ c, is_digit c = true) (uint_chars d).
Proof. induction d; simpl; by constructor. Qed.

Lemma str_of_nat_digits n : Forall (λ c, is_digit c = true) (str_of_nat n).
Proof. apply uint_chars_digits. Qed.

Lemma str_of_nat_nonempty n : str_of_nat n ≠ [].
Proof.
  unfold str_of_nat. pose proof (to_uint_nonnil n).
  by destruct (Nat.to_uint n).
Qed.

Lemma int_of_str_of_nat n : int_of_str (str_of_nat n) = Some n.
Proof.
  unfold int_of_str. pose proof (str_of_nat_nonempty n) as Hne.
  unfold str_of_nat in *.
  assert (Hread : read_digits (uint_chars (Nat.to_uint n)) = (Nat.to_uint n, [])).
  { pose proof (read_digits_uint_chars (Nat.to_uint n) []) as Hr.
    rewrite app_nil_r in Hr. by apply Hr. }
  destruct (uint_chars (Nat.to_uint n)); [done |].
  rewrite Hread. by rewrite DecimalNat.Unsigned.of_to.
Qed.

(** ** [split] and [join] on ", " *)

Lemma split_from_no_comma x s cur :
  comma ∉ x →
  split_from (py ", ") (x ++ s) cur 0 = split_from (py ", ") s (cur ++ x) 0.
Proof.
  revert cur. induction x as [|c x IH]; intros cur Hx; simpl.
  - by rewrite app_nil_r.
  - rewrite bool_decide_eq_false_2.
    + rewrite IH; [by rewrite <-app_assoc |]. intros ?. apply Hx. by right.
    + intros [k Hk]. injection Hk as -> _. apply Hx. by left.
Qed.

Lemma split_join_pieces (xs : list (list ascii)) x cur :
  Forall (λ x, comma ∉ x) (x :: xs) →
  split_from (py ", ") (join (py ", ") (x :: xs)) cur 0 = (cur ++ x) :: xs.
Proof.
  revert x cur. induction xs as [|y xs IH]; intros x cur [Hx Hxs]%Forall_cons.
  - simpl. rewrite <-(app_nil_r x) at 1. rewrite split_from_no_comma by done. done.
  - change (join (py ", ") (x :: y :: xs)) with (x ++ py ", " ++ join (py ", ") (y :: xs)).
    rewrite split_from_no_comma by done.
    change (py ", " ++ ?t) with (comma :: chr 32 :: t).
    cbn [split_from]. rewrite bool_decide_eq_true_2.
    + f_equal. change (length (py ", ") - 1) with 1. cbv iota. by rewrite IH.
    + by exists (join (py ", ") (y :: xs)).
Qed.

Lemma digits_no_comma x : Forall (λ c, is_digit c = true) x → comma ∉ x.
Proof.
  intros Hx Hin. rewrite Forall_forall in Hx. by specialize (Hx _ Hin).
Qed.

(** Splitting a [pages] field on ", " and reading the pieces as numbers
    gives back the page list; the empty field is the empty list. *)
Lemma pages_of_csv_pages_csv pages : pages_of_csv (pages_csv pages) = Some pages.
Proof.
  destruct pages as [|p pages]; [done |].
  assert (Hsplit : split (py ", ") (pages_csv (p :: pages)) = str_of_nat <$> p :: pages).
  { unfold split, pages_csv. rewrite fmap_cons, split_join_pieces; [done |].
    rewrite <-fmap_cons. apply Forall_fmap, Forall_forall.
    intros n _. apply digits_no_comma, str_of_nat_digits. }
  assert (Hne : pages_csv (p :: pages) ≠ []).
  { unfold pages_csv. csimpl. pose proof (str_of_nat_nonempty p).
    destruct (str_of_nat <$> pages); [done |]. by intros [? _]%app_eq_nil. }
  unfold pages_of_csv. rewrite Hsplit.
  destruct (pages_csv (p :: pages)); [done |].
  apply mapM_Some. apply Forall2_fmap_l.
  apply Forall_Forall2_diag, Forall_forall. intros n _. apply int_of_str_of_nat.
Qed.

Lemma pages_csv_empty pages : pages_csv pages = [] ↔ pages = [].
Proof.
  split; [| by intros ->].
  destruct pages as [|p pages]; [done |]. unfold pages_csv. csimpl.
  pose proof (str_of_nat_nonempty p).
  destruct (str_of_nat <$> pages); [done |]. by intros [? _]%app_eq_nil.
Qed.

(** ** The aggregator *)

Lemma search_pdf_Ok_keys fs file_path keywords m :
  search_pdf fs file_path keywords = Ok m → dict_keys m = first_occurrences keywords.
Proof.
  intros Hm. destruct (PdfReader fs file_path) as [pages|e] eqn:Hopen.
  - destruct (search_pdf_spec fs file_path pages keywords Hopen) as (m' & Hm' & Hk & _).
    congruence.
  - unfold search_pdf in Hm. by rewrite Hopen in Hm.
Qed.

Lemma elem_of_dict_set {V} k (v : V) d kv :
  kv ∈ dict_set k v d → kv ∈ d ∨ kv = (k, v).
Proof.
  induction d as [|[k' v'] d IH]; simpl.
  - intros ->%list_elem_of_singleton. by right.
  - destruct (decide (k' = k)) as [->|Hne].
    + intros [->|?]%elem_of_cons; [by right | left; by right].
    + intros [->|[?| ->]%IH]%elem_of_cons; [left; by left | left; by right | by right].
Qed.

Lemma elem_of_dict_of_items_from {V} (acc items : list (list ascii * V)) kv :
  kv ∈ foldl (λ d kv, dict_set kv.1 kv.2 d) acc items → kv ∈ acc ∨ kv ∈ items.
Proof.
  revert acc. induction items as [|[k v] items IH]; intros acc; simpl; [by left |].
  intros [[?| ->]%elem_of_dict_set|?]%IH; [by left | right; by left | right; by right].
Qed.

(** The aggregate is the comprehension over the (file name, mapping)
    pairs of the paths, in order. *)
Lemma run_search_from_items fs pdf_paths keywords acc data :
  run_search_from fs pdf_paths keywords acc = Ok data →
  ∃ items, items.*1 = path_name <$> pdf_paths ∧
    Forall (λ kv, dict_keys kv.2 = first_occurrences keywords) items ∧
    data = foldl (λ d kv, dict_set kv.1 kv.2 d) acc items.
Proof.
  revert acc. induction pdf_paths as [|p pdf_paths IH]; intros acc; simpl.
  - intros [= <-]. by exists [].
  - destruct (search_pdf fs p keywords) as [found|e] eqn:Hfound; [| done]. simpl.
    intros (items & Hnames & Hkeys & ->)%IH.
    exists ((path_name p, found) :: items). split_and!.
    + csimpl. by rewrite Hnames.
    + constructor; [| done]. by apply search_pdf_Ok_keys in Hfound.
    + done.
Qed.

Lemma run_search_spec fs pdf_paths keywords data :
  run_search fs pdf_paths keywords = Ok data →
  dict_keys data = first_occurrences (path_name <$> pdf_paths) ∧
  Forall (λ kv, dict_keys kv.2 = first_occurrences keywords) data.
Proof.
  intros (items & Hnames & Hkeys & ->)%run_search_from_items. split.
  - change (foldl _ [] items) with (dict_of_items items).
    by rewrite dict_keys_of_items, Hnames.
  - apply Forall_forall. intros kv [[]%elem_of_nil|Hin]%elem_of_dict_of_items_from.
    rewrite Forall_forall in Hkeys. auto.
Qed.

(** ** The writers and the tree *)

Lemma io_bind_apply {A B} (m : io A) (f : A → io B) trace :
  (m ≫= f) trace = match m trace with
                   | (Ok a, trace') => f a trace'
                   | (Raise e, trace') => (Raise e, trace')
                   end.
Proof. reflexivity. Qed.

Lemma written_files_app t1 t2 :
  written_files (t1 ++ t2) = written_files t1 ++ written_files t2.
Proof. unfold written_files. apply bind_app. Qed.

Lemma tree_after_anchor fs trace p : is_anchor p = true → tree_after fs trace p = Some Dir.
Proof. unfold tree_after. by intros ->. Qed.

Lemma tree_after_snoc fs trace e p :
  tree_after fs (trace ++ [e]) p =
    if is_anchor p then Some Dir else effect (tree_after fs trace) e p.
Proof.
  unfold tree_after. destruct (is_anchor p) eqn:Hp; [done |].
  rewrite foldl_app. cbn [foldl].
  destruct e; cbn [effect]; rewrite ?Hp; done.
Qed.

Lemma path_parent_shorter p : is_anchor p = false → length (path_parent p) < length p.
Proof.
  unfold is_anchor. intros Hp%bool_decide_eq_false.
  destruct p as [|a [|b p]].
  - destruct Hp. by left.
  - cbn [path_parent]. destruct (decide (a = [slash])) as [->|]; [| simpl; lia].
    destruct Hp. by right.
  - cbn [path_parent]. rewrite removelast_firstn_len, length_take. simpl. lia.
Qed.

Lemma not_prefix_parent p : is_anchor p = false → ¬ p `prefix_of` path_parent p.
Proof. intros Hp%path_parent_shorter Hpre%prefix_length. lia. Qed.

Lemma mkdir_from_free look above todo :
  (∀ n, 0 < n ≤ length todo → look (above ++ take n todo) ≠ Some Reg) →
  mkdir_from look above todo = Ok ().
Proof.
  revert above. induction todo as [|part rest IH]; intros above Hfree; [done |].
  cbn [mkdir_from].
  pose proof (Hfree 1 ltac:(simpl; lia)) as H1.
  change (take 1 (part :: rest)) with [part] in H1.
  destruct (look (above ++ [part])) as [[|]|]; [| done | done].
  apply IH. intros n Hn. rewrite <-app_assoc. cbn [app].
  apply (Hfree (S n)). simpl. lia.
Qed.

Lemma free_way_spec look dir :
  free_way look dir = true ↔ ∀ n, 0 < n ≤ length dir → look (take n dir) ≠ Some Reg.
Proof.
  unfold free_way, ancestors. rewrite forallb_forall. split.
  - intros Hall n Hn. specialize (Hall (take n dir)).
    destruct (look (take n dir)) as [[|]|]; [done | | done].
    discriminate Hall. apply list_elem_of_In, list_elem_of_fmap.
    exists n. split; [done |]. apply elem_of_seq. lia.
  - intros Hall q (n & -> & Hn%elem_of_seq)%list_elem_of_In%list_elem_of_fmap.
    specialize (Hall n ltac:(lia)). destruct (look (take n dir)) as [[|]|]; done.
Qed.

Lemma writable_spec look p :
  writable look p = true ↔
  (∀ n, 0 < n ≤ length (path_parent p) → look (take n (path_parent p)) ≠ Some Reg) ∧
  look p ≠ Some Dir.
Proof.
  unfold writable. rewrite andb_true_iff, free_way_spec.
  apply and_iff_compat_l. destruct (look p) as [[|]|]; naive_solver.
Qed.

(** After the [mkdir] of its parent a destination is opened unless it is
    a directory. *)
Lemma open_w_after_mkdir fs trace p :
  open_w (tree_after fs (trace ++ [Mkdir (path_parent p)])) p =
    match tree_after fs trace p with
    | Some Dir => Raise IsADirectoryError
    | _ => Ok ()
    end.
Proof.
  unfold open_w. rewrite !tree_after_snoc.
  destruct (is_anchor p) eqn:Hp.
  { by rewrite (tree_after_anchor fs trace p Hp). }
  cbn [effect]. rewrite bool_decide_eq_false_2
    by (intros [_ Hpre]; by apply (not_prefix_parent p)).
  destruct (tree_after fs trace p) as [[|]|]; [done | done |].
  destruct (is_anchor (path_parent p)) eqn:Hpp; [done |].
  rewrite bool_decide_eq_true_2; [done |].
  split; [| done]. intros Hnil. rewrite Hnil in Hpp. done.
Qed.

(** The two steps of a writer: what they do, by the tree they find. *)
Lemma mkdir_then_open fs p e trace :
  (mkdir fs (path_parent p);; perform fs (λ look, open_w look p) e) trace =
    match mkdir_from (tree_after fs trace) [] (path_parent p) with
    | Raise err => (Raise err, trace)
    | Ok _ =>
        match tree_after fs trace p with
        | Some Dir => (Raise IsADirectoryError, trace ++ [Mkdir (path_parent p)])
        | _ => (Ok (), trace ++ [Mkdir (path_parent p); e])
        end
    end.
Proof.
  rewrite io_bind_apply. unfold mkdir. unfold perform at 1.
  destruct (mkdir_from (tree_after fs trace) [] (path_parent p)) as [[]|err]; [| done].
  unfold perform. rewrite open_w_after_mkdir.
  destruct (tree_after fs trace p) as [[|]|]; by rewrite <-?app_assoc.
Qed.

Lemma mkdir_then_open_writable fs p e trace :
  writable (tree_after fs trace) p = true →
  (mkdir fs (path_parent p);; perform fs (λ look, open_w look p) e) trace =
    (Ok (), trace ++ [Mkdir (path_parent p); e]).
Proof.
  intros [Hway Hp]%writable_spec. rewrite mkdir_then_open.
  rewrite mkdir_from_free by done.
  destruct (tree_after fs trace p) as [[|]|]; done.
Qed.

(** Whatever a writer finds, it writes its file or none. *)
Lemma mkdir_then_open_traces fs p e trace r trace' :
  (mkdir fs (path_parent p);; perform fs (λ look, open_w look p) e) trace = (r, trace') →
  (r = Ok () ∧ trace' = trace ++ [Mkdir (path_parent p); e]) ∨
  ((∃ err, r = Raise err) ∧
   (trace' = trace ∨ trace' = trace ++ [Mkdir (path_parent p)])).
Proof.
  rewrite mkdir_then_open.
  destruct (mkdir_from (tree_after fs trace) [] (path_parent p)) as [[]|err].
  - destruct (tree_after fs trace p) as [[|]|]; intros [= <- <-]; [right | left | left]; try done.
    split; [by eexists | by right].
  - intros [= <- <-]. right. split; [by eexists | by left].
Qed.

Lemma mkdir_then_open_cases fs p e trace r trace' :
  (mkdir fs (path_parent p);; perform fs (λ look, open_w look p) e) trace = (r, trace') →
  (r = Ok () ∧ trace' = trace ++ [Mkdir (path_parent p); e]) ∨
  ((∃ err, r = Raise err) ∧ written_files trace' = written_files trace).
Proof.
  intros [Hok | [Herr [-> | ->]]]%mkdir_then_open_traces; [by left | by right |].
  right. split; [done |]. rewrite written_files_app. apply app_nil_r.
Qed.

(** A destination that can be written still can after an event that
    neither makes it a directory nor puts a file in its way. *)
Lemma writable_snoc fs trace e c :
  writable (tree_after fs trace) c = true →
  match e with
  | Print _ => True
  | Mkdir dir => ¬ c `prefix_of` dir
  | WriteText f _ | WriteRows f _ => ¬ f `prefix_of` path_parent c
  end →
  writable (tree_after fs (trace ++ [e])) c = true.
Proof.
  rewrite !writable_spec. intros [Hway Hc] He. split.
  - intros n Hn. rewrite tree_after_snoc.
    destruct (is_anchor (take n (path_parent c))); [done |].
    specialize (Hway n Hn).
    destruct e as [line|dir|f text|f rows]; cbn [effect]; [done | | |].
    + by case_bool_decide.
    + case_bool_decide as Hf; [| done]. destruct He. rewrite <-Hf. apply prefix_take.
    + case_bool_decide as Hf; [| done]. destruct He. rewrite <-Hf. apply prefix_take.
  - rewrite tree_after_snoc. destruct (is_anchor c) eqn:Hanchor.
    { by rewrite (tree_after_anchor fs trace c Hanchor) in Hc. }
    destruct e as [line|dir|f text|f rows]; cbn [effect]; [done | | |].
    + case_bool_decide as Hpre; [| done]. by destruct Hpre.
    + by case_bool_decide.
    + by case_bool_decide.
Qed.

(** ** The CSV rows *)

Lemma csv_rows_entries data :
  csv_rows data =
    [py "filename"; py "keyword"; py "pages"]
      :: ((λ '(f, k, ps), [f; k; pages_csv ps]) <$> report_entries data).
Proof.
  unfold csv_rows, report_entries. f_equal.
  induction data as [|[f m] data IH]; [done |].
  rewrite !bind_cons, fmap_app, IH. f_equal.
  clear IH. induction m as [|[k ps] m IH]; [done |].
  rewrite bind_cons, !fmap_cons, IH. done.
Qed.

Lemma length_report_entries data n :
  Forall (λ kv, length (dict_keys kv.2) = n) data →
  length (report_entries data) = length data * n.
Proof.
  unfold report_entries. induction 1 as [|[f m] data Hm Hdata IH]; [done |].
  rewrite bind_cons, length_app, IH, length_fmap. simpl in *.
  unfold dict_keys in Hm. rewrite length_fmap in Hm. lia.
Qed.

(** C7: for the aggregate of a run, the CSV that [write_csv] writes is
    the header and then one row per (filename, keyword) entry of the
    aggregate, in its iteration order: as many rows as the aggregate has
    files times the keywords each file's mapping has, which is the number
    of paths times the number of keywords when the file names are distinct
    and the keywords are.  It is written when the destination can be:
    [write_csv] raises where [mkdir] or [open] does, and then writes no
    file.  The third field of a row is the entry's pages joined by ", ";
    split on ", " and read as numbers it is the page list again, and it is
    empty exactly for the empty list. *)
Theorem write_csv_rows fs pdf_paths keywords data out_path trace :
  run_search fs pdf_paths keywords = Ok data →
  ∃ rows,
    (writable (tree_after fs trace) out_path = true →
     write_csv fs data out_path trace =
       (Ok (), trace ++ [Mkdir (path_parent out_path);
                         WriteRows out_path
                           ([py "filename"; py "keyword"; py "pages"] :: rows)])) ∧
    (∀ r trace', write_csv fs data out_path trace = (r, trace') →
       (r = Ok () ∧
        trace' = trace ++ [Mkdir (path_parent out_path);
                           WriteRows out_path
                             ([py "filename"; py "keyword"; py "pages"] :: rows)]) ∨
       ((∃ e, r = Raise e) ∧ written_files trace' = written_files trace)) ∧
    (∀ fname mapping, (fname, mapping) ∈ data →
       length rows = length data * length mapping) ∧
    length rows = length (dict_keys data) * length (first_occurrences keywords) ∧
    (NoDup (path_name <$> pdf_paths) → NoDup keywords →
     length rows = length pdf_paths * length keywords) ∧
    dict_keys data = first_occurrences (path_name <$> pdf_paths) ∧
    Forall (λ kv, dict_keys kv.2 = first_occurrences keywords) data ∧
    rows = (λ '(f, k, ps), [f; k; pages_csv ps]) <$> report_entries data ∧
    Forall (λ '(f, k, ps), pages_of_csv (pages_csv ps) = Some ps ∧
                           (pages_csv ps = [] ↔ ps = []))
           (report_entries data).
Proof.
  intros [Hfiles Hkeys]%run_search_spec.
  exists ((λ '(f, k, ps), [f; k; pages_csv ps]) <$> report_entries data).
  assert (Hlen : length ((λ '(f, k, ps), [f; k; pages_csv ps]) <$> report_entries data)
                 = length (dict_keys data) * length (first_occurrences keywords)).
  { rewrite length_fmap. unfold dict_keys at 1. rewrite length_fmap.
    apply length_report_entries.
    eapply Forall_impl; [apply Hkeys |]. by intros kv ->. }
  split_and!; [| | | done | | done | done | done |].
  - intros Hw. unfold write_csv, write_rows.
    by rewrite mkdir_then_open_writable, csv_rows_entries.
  - intros r trace'. unfold write_csv, write_rows. rewrite csv_rows_entries.
    apply mkdir_then_open_cases.
  - intros fname mapping Hin. rewrite Hlen.
    rewrite Forall_forall in Hkeys. rewrite <-(Hkeys _ Hin). simpl.
    unfold dict_keys. by rewrite !length_fmap.
  - intros Hnames Hkws. rewrite Hlen, Hfiles.
    rewrite !first_occurrences_NoDup by done. by rewrite length_fmap.
  - apply Forall_forall. intros [[f k] ps] _.
    split; [apply pages_of_csv_pages_csv | apply pages_csv_empty].
Qed.

Lemma write_csv_rows_witness :
  ∃ rows,
    write_csv sample_fs sample_report [py "out"; py "report.csv"] [] =
      (Ok (), [] ++ [Mkdir (path_parent [py "out"; py "report.csv"]);
                     WriteRows [py "out"; py "report.csv"]
                       ([py "filename"; py "keyword"; py "pages"] :: rows)]) ∧
    (∀ fname mapping, (fname, mapping) ∈ sample_report →
       length rows = length sample_report * length mapping) ∧
    length rows =
      length (dict_keys sample_report) * length (first_occurrences [py "invoice"; py "terms"]) ∧
    (NoDup (path_name <$> [invoice_path; damaged_path]) → NoDup [py "invoice"; py "terms"] →
     length rows = length [invoice_path; damaged_path] * length [py "invoice"; py "terms"]) ∧
    dict_keys sample_report =
      first_occurrences (path_name <$> [invoice_path; damaged_path]) ∧
    Forall (λ kv, dict_keys kv.2 = first_occurrences [py "invoice"; py "terms"])
           sample_report ∧
    rows = (λ '(f, k, ps), [f; k; pages_csv ps]) <$> report_entries sample_report ∧
    Forall (λ '(f, k, ps), pages_of_csv (pages_csv ps) = Some ps ∧
                           (pages_csv ps = [] ↔ ps = []))
           (report_entries sample_report).
Proof.
  destruct (write_csv_rows sample_fs [invoice_path; damaged_path]
              [py "invoice"; py "terms"] sample_report [py "out"; py "report.csv"] []
              eq_refl) as (rows & Hwritten & _ & Hrows).
  exists rows. split; [| exact Hrows].
  apply Hwritten. reflexivity.
Defined.

Lemma pieces_app_no_separator k rest :
  Forall (λ c, is_separator c = false) k →
  pieces (k ++ rest) = prepend k (pieces rest).
Proof.
  induction 1 as [|c k Hc Hk IH]; simpl.
  - pose proof (pieces_nonempty rest). by destruct (pieces rest).
  - rewrite Hc, IH. pose proof (pieces_nonempty rest). by destruct (pieces rest).
Qed.

(** C10: with duplicates in the keyword list, the mapping [search_pdf]
    returns has one key per distinct keyword, in the order of first
    occurrence, hence one CSV row per distinct keyword for the file;
    the loader itself keeps duplicates. *)
Theorem search_pdf_duplicate_keywords fs file_path pages keywords :
  PdfReader fs file_path = Ok pages →
  ∃ m, search_pdf fs file_path keywords = Ok m ∧
    dict_keys m = first_occurrences keywords ∧
    NoDup (dict_keys m) ∧
    (∀ k, k ∈ dict_keys m ↔ k ∈ keywords) ∧
    length (csv_rows [(path_name file_path, m)]) = 1 + length (first_occurrences keywords) ∧
    (∀ fs' path k,
       read_text fs' path = Ok (k ++ [comma] ++ k) →
       k ≠ [] → strip k = k → Forall (λ c, is_separator c = false) k →
       load_keywords fs' path = Ok [k; k]).
Proof.
  intros Hopen.
  destruct (search_pdf_spec fs file_path pages keywords Hopen) as (m & Hm & Hkeys & _).
  exists m. split_and!; [done | done | | | |].
  - rewrite Hkeys. apply NoDup_first_occurrences.
  - intros k. rewrite Hkeys. apply elem_of_first_occurrences.
  - rewrite csv_rows_entries. cbn [length]. f_equal. rewrite length_fmap.
    rewrite (length_report_entries _ (length (first_occurrences keywords))).
    + simpl. lia.
    + constructor; [| done]. simpl. by rewrite Hkeys.
  - intros fs' path k Hread Hne Hstrip Hsep.
    rewrite (load_keywords_of_text fs' path _ Hread). f_equal.
    unfold keywords_of_text.
    assert (Hk : pieces k = [k]).
    { pose proof (pieces_app_no_separator k [] Hsep) as Hp.
      simpl in Hp. by rewrite !app_nil_r in Hp. }
    rewrite pieces_app_no_separator by done.
    change (pieces ([comma] ++ k)) with ([] :: pieces k).
    rewrite Hk. simpl. rewrite app_nil_r. csimpl. rewrite Hstrip.
    by rewrite !filter_cons_True by done.
Qed.

Lemma search_pdf_duplicate_keywords_witness :
  ∃ m, search_pdf sample_fs invoice_path [py "terms"; py "invoice"; py "terms"] = Ok m ∧
    dict_keys m = first_occurrences [py "terms"; py "invoice"; py "terms"] ∧
    NoDup (dict_keys m) ∧
    (∀ k, k ∈ dict_keys m ↔ k ∈ [py "terms"; py "invoice"; py "terms"]) ∧
    length (csv_rows [(path_name invoice_path, m)]) =
      1 + length (first_occurrences [py "terms"; py "invoice"; py "terms"]) ∧
    (∀ fs' path k,
       read_text fs' path = Ok (k ++ [comma] ++ k) →
       k ≠ [] → strip k = k → Forall (λ c, is_separator c = false) k →
       load_keywords fs' path = Ok [k; k]).
Proof.
  apply (search_pdf_duplicate_keywords sample_fs invoice_path invoice_pages).
  reflexivity.
Defined.

(** ** The path resolver *)

Lemma list_compare_antisym {A} (cmp : A → A → comparison) :
  (∀ x y, cmp y x = CompOpp (cmp x y)) →
  ∀ l1 l2, list_compare cmp l2 l1 = CompOpp (list_compare cmp l1 l2).
Proof.
  intros Hcmp. induction l1 as [|x l1 IH]; intros [|y l2]; simpl; try done.
  rewrite (Hcmp x y). destruct (cmp x y); simpl; [apply IH | done | done].
Qed.

Lemma list_compare_app {A} (cmp : A → A → comparison) l l1 l2 :
  (∀ x, cmp x x = Eq) →
  list_compare cmp (l ++ l1) (l ++ l2) = list_compare cmp l1 l2.
Proof. intros Hrefl. induction l as [|x l IH]; simpl; [done |]. by rewrite Hrefl. Qed.

Lemma str_compare_antisym a b : str_compare b a = CompOpp (str_compare a b).
Proof. apply list_compare_antisym. intros x y. apply Nat.compare_antisym. Qed.

Lemma list_compare_refl {A} (cmp : A → A → comparison) l :
  (∀ x, cmp x x = Eq) → list_compare cmp l l = Eq.
Proof. intros Hrefl. induction l as [|x l IH]; simpl; [done |]. by rewrite Hrefl. Qed.

Lemma str_compare_refl a : str_compare a a = Eq.
Proof. apply list_compare_refl. intros c. apply Nat.compare_refl. Qed.

Lemma name_lt_asym f a b : name_lt f a b = true → name_lt f b a = false.
Proof.
  unfold name_lt. rewrite (str_compare_antisym (name_key f a)).
  by destruct (str_compare (name_key f a) (name_key f b)).
Qed.

(** Two entries of one directory compare as their names do. *)
Lemma path_lt_siblings f dir a b :
  path_lt f (dir ++ [a]) (dir ++ [b]) = name_lt f a b.
Proof.
  unfold path_lt, name_lt. destruct f; simpl.
  - rewrite list_compare_app by apply str_compare_refl. simpl.
    by destruct (str_compare a b).
  - rewrite !fmap_app, list_compare_app by apply str_compare_refl. simpl.
    by destruct (str_compare (lower a) (lower b)).
Qed.

Lemma insert_sorted_fmap {A B} (g : A → B) lt1 lt2 x l :
  (∀ a b, lt2 (g a) (g b) = lt1 a b) →
  insert_sorted lt2 (g x) (g <$> l) = g <$> insert_sorted lt1 x l.
Proof.
  intros Hlt. induction l as [|y l IH]; csimpl; [done |].
  rewrite Hlt. destruct (lt1 x y); csimpl; [done |]. by rewrite IH.
Qed.

Lemma sorted_fmap {A B} (g : A → B) lt1 lt2 l :
  (∀ a b, lt2 (g a) (g b) = lt1 a b) →
  sorted lt2 (g <$> l) = g <$> sorted lt1 l.
Proof.
  intros Hlt. unfold sorted.
  change (@nil B) with (g <$> @nil A). generalize (@nil A).
  induction l as [|x l IH]; intros acc; csimpl; [done |].
  by rewrite (insert_sorted_fmap g lt1 lt2), IH.
Qed.

Lemma filter_fmap_paths (dir : list (list ascii)) (names : list (list ascii)) :
  filter (λ p, lower (suffix p) = py ".pdf") ((λ n, dir ++ [n]) <$> names) =
    (λ n, dir ++ [n]) <$> filter (λ n, lower (suffix [n]) = py ".pdf") names.
Proof.
  assert (Hs : ∀ n, suffix (dir ++ [n]) = suffix [n]).
  { intros n. unfold suffix, path_name. by rewrite last_snoc. }
  induction names as [|n names IH]; [done |].
  rewrite fmap_cons, !filter_cons, Hs, IH.
  by destruct (decide (lower (suffix [n]) = py ".pdf")).
Qed.

Lemma gather_pdf_paths_names fs dir names :
  fs_node fs dir = Some (Directory names) →
  gather_pdf_paths fs (Some dir) None =
    Ok ((λ n, dir ++ [n]) <$>
          sorted (name_lt (fs_flavour fs))
            (filter (λ n, lower (suffix [n]) = py ".pdf") names)).
Proof.
  intros Hdir. unfold gather_pdf_paths, path_exists, iterdir. rewrite Hdir.
  rewrite bool_decide_eq_true_2 by eauto. cbn [negb]. rewrite bind_Ok. f_equal.
  rewrite filter_fmap_paths. apply sorted_fmap.
  intros a b. apply path_lt_siblings.
Qed.

(** C4, as the code has it: in directory mode the resolver keeps exactly
    the direct children whose suffix, lower-cased, is ".pdf", and returns
    them sorted ascending in the order of the platform's paths: by the
    code points of the name on POSIX, where upper case comes before lower
    case, and by the lower-cased name on Windows.  For B.pdf, a.PDF and
    c.txt that is B.pdf, a.PDF on POSIX and a.PDF, B.pdf on Windows. *)
Theorem gather_pdf_paths_directory fs dir names :
  fs_node fs dir = Some (Directory names) →
  ∃ kept, gather_pdf_paths fs (Some dir) None = Ok ((λ n, dir ++ [n]) <$> kept) ∧
    kept ≡ₚ filter (λ n, lower (suffix [n]) = py ".pdf") names ∧
    Sorted (λ a b, str_compare (name_key (fs_flavour fs) b) (name_key (fs_flavour fs) a) ≠ Lt)
      kept ∧
    (names = mixed_case_names →
     kept = match fs_flavour fs with
            | Posix => [py "B.pdf"; py "a.PDF"]
            | Windows => [py "a.PDF"; py "B.pdf"]
            end).
Proof.
  intros Hdir. eexists. split_and!.
  - by apply gather_pdf_paths_names.
  - apply sorted_Permutation.
  - eapply Sorted_weaken; [| apply sorted_Sorted, name_lt_asym].
    intros a b. unfold name_lt. simpl.
    by destruct (str_compare _ _).
  - intros ->. by destruct (fs_flavour fs).
Qed.

Lemma gather_pdf_paths_directory_witness :
  ∃ kept, gather_pdf_paths (mixed_case_fs Posix) (Some [py "docs"]) None
            = Ok ((λ n, [py "docs"] ++ [n]) <$> kept) ∧
    kept ≡ₚ filter (λ n, lower (suffix [n]) = py ".pdf") mixed_case_names ∧
    Sorted (λ a b, str_compare (name_key Posix b) (name_key Posix a) ≠ Lt) kept ∧
    (mixed_case_names = mixed_case_names →
     kept = [py "B.pdf"; py "a.PDF"]).
Proof.
  apply (gather_pdf_paths_directory (mixed_case_fs Posix) [py "docs"] mixed_case_names).
  reflexivity.
Defined.

(** C4 as stated fails on POSIX: the directory with B.pdf, a.PDF and
    c.txt does not resolve to a.PDF, B.pdf there. *)
Lemma gather_pdf_paths_order_counterexample :
  ¬ (∀ fs dir,
       fs_node fs dir = Some (Directory [py "B.pdf"; py "a.PDF"; py "c.txt"]) →
       gather_pdf_paths fs (Some dir) None = Ok [dir ++ [py "a.PDF"]; dir ++ [py "B.pdf"]]).
Proof.
  intros H. specialize (H (mixed_case_fs Posix) [py "docs"] eq_refl).
  vm_compute in H. discriminate H.
Qed.

(** C6, as the code has it: with neither a directory nor a file the
    resolver raises [ValueError]; with a file, alone or next to a
    directory, it is in single-file mode: [FileNotFoundError] when the
    path does not exist, else the one path.  Giving both is refused by the
    command-line parser, not by the resolver. *)
Theorem gather_pdf_paths_modes fs dir file :
  gather_pdf_paths fs None None = Raise ValueError ∧
  gather_pdf_paths fs dir (Some file) =
    (if path_exists fs file then Ok [file] else Raise FileNotFoundError) ∧
  (∀ d f kw o oc od, parse_args (CommandLine (Some d) (Some f) kw o oc od) = Raise UsageError) ∧
  (∀ kw o oc od, parse_args (CommandLine None None kw o oc od) = Raise UsageError).
Proof.
  split_and!; [done | | done | done].
  unfold gather_pdf_paths. by destruct (path_exists fs file).
Qed.

(** C6 as stated fails: with both a directory and a file the resolver does
    not fail, it returns the file. *)
Lemma gather_pdf_paths_both_counterexample :
  ¬ (∀ fs dir file,
       ¬ (is_Some dir ∧ file = None ∨ dir = None ∧ is_Some file) →
       ∃ e, gather_pdf_paths fs dir file = Raise e).
Proof.
  intros H. destruct (H sample_fs (Some [py "pdfs"]) (Some invoice_path)) as [e He].
  - intros [[_ ?]|[? _]]; discriminate.
  - vm_compute in He. discriminate He.
Qed.

(** ** The command-line driver *)

(** C9: when the keyword list is empty, or the list of PDF paths is, the
    run prints one message and returns normally; its trace has no other
    event, so no directory is made and no file written. *)
Theorem main_nothing_to_do fs argv args :
  parse_args argv = Ok args →
  (load_keywords fs (keywords_file args) = Ok [] →
   run fs argv = (Ok (), [Print (py "No keywords found in the keywords file.")]) ∧
   written_files (run fs argv).2 = []) ∧
  (∀ keywords,
     load_keywords fs (keywords_file args) = Ok keywords → keywords ≠ [] →
     gather_pdf_paths fs (pdf_dir args) (pdf_file args) = Ok [] →
     run fs argv = (Ok (), [Print (py "No PDF files found to search.")]) ∧
     written_files (run fs argv).2 = []).
Proof.
  intros Hargs. split.
  - intros Hkw.
    assert (Hrun : run fs argv =
                   (Ok (), [Print (py "No keywords found in the keywords file.")])).
    { unfold run, main, lift, mbind, io_bind. by rewrite Hargs, Hkw. }
    by rewrite Hrun.
  - intros keywords Hkw Hne Hpaths.
    assert (Hrun : run fs argv = (Ok (), [Print (py "No PDF files found to search.")])).
    { unfold run, main, lift, mbind, io_bind. rewrite Hargs, Hkw.
      destruct keywords; [done |]. by rewrite Hpaths. }
    by rewrite Hrun.
Qed.

Lemma main_nothing_to_do_witness :
  (run sample_fs argv_no_keywords =
     (Ok (), [Print (py "No keywords found in the keywords file.")]) ∧
   written_files (run sample_fs argv_no_keywords).2 = []) ∧
  (run sample_fs argv_no_pdfs = (Ok (), [Print (py "No PDF files found to search.")]) ∧
   written_files (run sample_fs argv_no_pdfs).2 = []).
Proof.
  split.
  - apply (proj1 (main_nothing_to_do sample_fs argv_no_keywords
                    (Namespace (Some [py "pdfs"]) None [py "empty.txt"]
                               None None (Some [py "out"]))
                    eq_refl)).
    reflexivity.
  - apply (proj2 (main_nothing_to_do sample_fs argv_no_pdfs
                    (Namespace (Some [py "notes"]) None [py "keywords.txt"]
                               None None (Some [py "out"]))
                    eq_refl)
             [py "Alpha"; py "beta"; py "gamma"]).
    + reflexivity.
    + discriminate.
    + reflexivity.
Defined.

(** ** JSON *)

(** Reading back one escaped character. *)
Lemma scanstring_escape_char c t :
  scanstring (json_escape_char c ++ t) =
    scanstring t ≫= λ '(str, rest), Some (c :: str, rest).
Proof. destruct c as [[] [] [] [] [] [] [] []]; reflexivity. Qed.

Lemma scanstring_json_string s rest :
  scanstring ((s ≫= json_escape_char) ++ quote :: rest) = Some (s, rest).
Proof.
  induction s as [|c s IH]; [done |].
  rewrite bind_cons, <-app_assoc, scanstring_escape_char, IH. done.
Qed.

Lemma pyval_ind_nested (P : pyval → Prop) :
  (∀ n, P (PInt n)) →
  (∀ s, P (PStr s)) →
  (∀ items, Forall P items → P (PList items)) →
  (∀ items, Forall (λ kv, P kv.2) items → P (PDict items)) →
  ∀ v, P v.
Proof.
  intros Hint Hstr Hlist Hdict. fix IH 1. intros [n|s|items|items].
  - apply Hint.
  - apply Hstr.
  - apply Hlist. induction items as [|v items IHitems]; constructor; [apply IH | done].
  - apply Hdict. induction items as [|[k v] items IHitems]; constructor; [apply IH | done].
Qed.

Lemma skip_ws_fixed c t : is_json_ws c = false → skip_ws (c :: t) = c :: t.
Proof. intros Hc. unfold skip_ws. simpl. by rewrite Hc. Qed.

Lemma skip_ws_newline_indent level t : skip_ws (newline_indent level ++ t) = skip_ws t.
Proof.
  unfold newline_indent, skip_ws.
  change (drop_while is_json_ws ((newline :: ?l) ++ t))
    with (drop_while is_json_ws (l ++ t)).
  induction (2 * level) as [|n IH]; [done |]. exact IH.
Qed.

Lemma is_digit_not_special c :
  is_digit c = true →
  is_json_ws c = false ∧ c ≠ quote ∧ c ≠ "{"%char ∧ c ≠ "["%char ∧
  c ≠ "]"%char ∧ c ≠ "}"%char.
Proof.
  destruct c as [[] [] [] [] [] [] [] []]; intros H; try discriminate H;
    split_and!; (reflexivity || discriminate).
Qed.

Lemma ends_number_newline_indent level t : ends_number (newline_indent level ++ t).
Proof. split; [done |]. by apply (bool_decide_unpack _). Qed.

Lemma ends_number_comma t : ends_number (comma :: t).
Proof. split; [done |]. by apply (bool_decide_unpack _). Qed.

Lemma scan_number_str_of_nat n rest :
  ends_number rest → scan_number (str_of_nat n ++ rest) = Some (n, rest).
Proof.
  intros Hrest.
  assert (Hend : ∀ m : nat, match rest with
                      | c :: _ => if decide (c ∈ py ".eE") then None else Some (m, rest)
                      | [] => Some (m, rest)
                      end = Some (m, rest)).
  { intros m. destruct rest as [|c rest]; [done |].
    destruct Hrest as [_ Hc]. by rewrite decide_False. }
  unfold scan_number, str_of_nat.
  pose proof (read_digits_uint_chars (Nat.to_uint n) rest Hrest) as Hread.
  pose proof (DecimalNat.Unsigned.of_to n) as Hn.
  destruct (Nat.to_uint n) as [|d|d|d|d|d|d|d|d|d|d] eqn:Hd;
    [by apply to_uint_nonnil in Hd | | cbn [uint_chars app]; rewrite decide_False by done;
       cbn [uint_chars app] in Hread; rewrite Hread, Hn; apply Hend ..].
  pose proof (to_uint_D0 n d Hd) as Hn0. clear Hn Hread. subst n.
  cbv in Hd. injection Hd as <-. apply Hend.
Qed.

Lemma json_encode_head level v :
  ∃ c t, json_encode level v = c :: t ∧ is_json_ws c = false ∧
         c ≠ "]"%char ∧ c ≠ "}"%char.
Proof.
  destruct v as [n|s|[|v items]|[|kv items]];
    try (eexists _, _; split; [reflexivity | by split_and!]).
  pose proof (str_of_nat_nonempty n) as Hne.
  pose proof (str_of_nat_digits n) as Hd. simpl.
  destruct (str_of_nat n) as [|c t]; [done |].
  apply Forall_cons in Hd as [Hc%is_digit_not_special _].
  destruct Hc as (? & _ & _ & _ & ? & ?). by exists c, t.
Qed.

Lemma skip_ws_json_encode level v t :
  skip_ws (json_encode level v ++ t) = json_encode level v ++ t.
Proof.
  destruct (json_encode_head level v) as (c & t' & -> & Hc & _).
  by apply skip_ws_fixed.
Qed.

Lemma reads_back_int n : reads_back (PInt n).
Proof.
  intros level fuel rest Hfuel Hrest. simpl in *.
  pose proof (str_of_nat_nonempty n) as Hne.
  pose proof (str_of_nat_digits n) as Hd.
  pose proof (scan_number_str_of_nat n rest Hrest) as Hscan.
  destruct (str_of_nat n) as [|c t]; [done |].
  apply Forall_cons in Hd as [Hc _].
  destruct (is_digit_not_special c Hc) as (_ & ? & ? & ? & _ & _).
  destruct fuel as [|fuel]; [simpl in Hfuel; lia |].
  cbn [app scan_once]. rewrite !decide_False by done. rewrite Hc.
  cbn [app] in Hscan. by rewrite Hscan.
Qed.

Lemma reads_back_str s : reads_back (PStr s).
Proof.
  intros level fuel rest Hfuel Hrest.
  destruct fuel as [|fuel]; [simpl in Hfuel; lia |].
  cbn [json_encode json_string app scan_once].
  rewrite decide_True by done.
  rewrite <-app_assoc. cbn [app]. by rewrite scanstring_json_string.
Qed.

Lemma scan_items_unfold fuel s values :
  scan_items (S fuel) s values =
    scan_once fuel s ≫= λ '(value, s1),
      match skip_ws s1 with
      | c :: s2 =>
          if decide (c = "]"%char) then Some (PList (values ++ [value]), s2)
          else if decide (c = comma) then scan_items fuel (skip_ws s2) (values ++ [value])
          else None
      | [] => None
      end.
Proof. reflexivity. Qed.

Lemma scan_members_unfold fuel s pairs :
  scan_members (S fuel) s pairs =
    scanstring s ≫= λ '(key, s1),
      match skip_ws s1 with
      | c :: s2 =>
          if decide (c = ":"%char) then
            scan_once fuel (skip_ws s2) ≫= λ '(value, s3),
              match skip_ws s3 with
              | c1 :: s4 =>
                  if decide (c1 = "}"%char)
                  then Some (PDict (dict_of_items (pairs ++ [(key, value)])), s4)
                  else if decide (c1 = comma) then
                    match skip_ws s4 with
                    | c2 :: s5 =>
                        if decide (c2 = quote)
                        then scan_members fuel s5 (pairs ++ [(key, value)])
                        else None
                    | [] => None
                    end
                  else None
              | [] => None
              end
          else None
      | [] => None
      end.
Proof. reflexivity. Qed.

Lemma scan_once_list fuel s :
  scan_once (S fuel) ("["%char :: s) =
    match skip_ws s with
    | c1 :: s1 =>
        if decide (c1 = "]"%char) then Some (PList [], s1)
        else scan_items fuel (c1 :: s1) []
    | [] => None
    end.
Proof. reflexivity. Qed.

Lemma scan_once_dict fuel s :
  scan_once (S fuel) ("{"%char :: s) =
    match skip_ws s with
    | c1 :: s1 =>
        if decide (c1 = "}"%char) then Some (PDict [], s1)
        else if decide (c1 = quote) then scan_members fuel s1 []
        else None
    | [] => None
    end.
Proof. reflexivity. Qed.

Lemma join_cons_cons sep (x y : list ascii) l :
  join sep (x :: y :: l) = x ++ sep ++ join sep (y :: l).
Proof. reflexivity. Qed.

Lemma scan_items_join level vs :
  ∀ v fuel rest acc,
    Forall reads_back (v :: vs) →
    length (join (comma :: newline_indent (S level))
              (json_encode (S level) <$> v :: vs)) < fuel →
    scan_items fuel
      (join (comma :: newline_indent (S level)) (json_encode (S level) <$> v :: vs)
         ++ newline_indent level ++ py "]" ++ rest) acc
    = Some (PList (acc ++ v :: vs), rest).
Proof.
  induction vs as [|v' vs IH]; intros v fuel rest acc [Hv Hvs]%Forall_cons Hfuel;
    (destruct fuel as [|fuel]; [lia |]); rewrite scan_items_unfold.
  - cbn [fmap list_fmap join] in *.
    rewrite (Hv (S level) fuel) by (lia || apply ends_number_newline_indent).
    cbn [mbind option_bind]. rewrite skip_ws_newline_indent.
    change (py "]" ++ rest) with ("]"%char :: rest).
    rewrite skip_ws_fixed by done. by rewrite decide_True.
  - rewrite !fmap_cons, join_cons_cons in *. rewrite length_app in Hfuel.
    rewrite <-!app_assoc.
    change ((comma :: newline_indent (S level)) ++ ?t)
      with (comma :: (newline_indent (S level) ++ t)).
    rewrite (Hv (S level) fuel) by (lia || apply ends_number_comma).
    cbn [mbind option_bind]. rewrite skip_ws_fixed by done.
    rewrite decide_False by done. rewrite decide_True by done.
    rewrite skip_ws_newline_indent.
    rewrite <-fmap_cons.
    destruct (json_encode_head (S level) v') as (c & t & Hhead & Hc & _).
    assert (Hskip : ∀ u, skip_ws (join (comma :: newline_indent (S level))
                                    (json_encode (S level) <$> v' :: vs) ++ u)
                         = join (comma :: newline_indent (S level))
                             (json_encode (S level) <$> v' :: vs) ++ u).
    { intros u. rewrite fmap_cons.
      destruct (json_encode (S level) <$> vs); cbn [join]; rewrite Hhead;
        by apply skip_ws_fixed. }
    rewrite Hskip, IH; [by rewrite <-app_assoc | done |].
    rewrite length_app in Hfuel. rewrite fmap_cons. cbn [length] in Hfuel. lia.
Qed.

Lemma reads_back_list items : Forall reads_back items → reads_back (PList items).
Proof.
  intros Hitems level fuel rest Hfuel Hrest.
  destruct items as [|v vs].
  { destruct fuel as [|fuel]; [simpl in Hfuel; lia | done]. }
  cbn [json_encode] in *.
  change (py "[" ++ ?t) with ("["%char :: t) in *.
  assert (Hlen : length (join (comma :: newline_indent (S level))
                           (json_encode (S level) <$> v :: vs)) + 2 ≤ fuel).
  { cbn [length] in Hfuel. rewrite !length_app in Hfuel.
    change (length (py "]")) with 1 in Hfuel. lia. }
  destruct fuel as [|fuel]; [lia |].
  cbn [app]. rewrite scan_once_list. rewrite <-!app_assoc.
  rewrite skip_ws_newline_indent.
  destruct (json_encode_head (S level) v) as (c & t & Hhead & Hc & Hc' & _).
  assert (Hstart : ∃ t', join (comma :: newline_indent (S level))
                           (json_encode (S level) <$> v :: vs) = c :: t').
  { rewrite fmap_cons. destruct (json_encode (S level) <$> vs); cbn [join];
      rewrite Hhead; eauto. }
  destruct Hstart as [t' Hstart].
  pose proof (scan_items_join level vs v fuel rest [] Hitems) as Hscan.
  rewrite Hstart in *. cbn [app] in *.
  rewrite skip_ws_fixed by done. rewrite decide_False by done.
  apply Hscan. lia.
Qed.

Lemma skip_ws_space t : skip_ws (chr 32 :: t) = skip_ws t.
Proof. reflexivity. Qed.

Lemma json_encode_dict level kv items :
  json_encode level (PDict (kv :: items)) =
    "{"%char :: newline_indent (S level)
      ++ join (comma :: newline_indent (S level)) (json_member (S level) <$> kv :: items)
      ++ newline_indent level ++ py "}".
Proof. reflexivity. Qed.

Lemma join_bind sep (x : list ascii) l :
  join sep (x :: l) = x ++ (l ≫= λ y, sep ++ y).
Proof.
  revert x. induction l as [|y l IH]; intros x.
  - by rewrite app_nil_r.
  - rewrite join_cons_cons, IH, bind_cons. by rewrite <-app_assoc.
Qed.

Lemma option_bind_Some {A B} (f : A → option B) x : Some x ≫= f = f x.
Proof. reflexivity. Qed.

Lemma scan_members_text level items :
  ∀ k v fuel rest acc,
    Forall (λ kv, reads_back kv.2) ((k, v) :: items) →
    length (json_encode (S level) v)
      + length (items ≫= λ kv, comma :: newline_indent (S level)
                                 ++ json_member (S level) kv) < fuel →
    scan_members fuel
      ((k ≫= json_escape_char) ++ quote
         :: (py ": " ++ json_encode (S level) v
               ++ (items ≫= λ kv, comma :: newline_indent (S level)
                                    ++ json_member (S level) kv)
               ++ newline_indent level ++ py "}" ++ rest)) acc
    = Some (PDict (dict_of_items (acc ++ (k, v) :: items)), rest).
Proof.
  induction items as [|[k' v'] items IH];
    intros k v fuel rest acc [Hv Hitems]%Forall_cons Hfuel;
    (destruct fuel as [|fuel]; [lia |]); rewrite scan_members_unfold;
    cbn [snd] in Hv; rewrite scanstring_json_string; rewrite option_bind_Some; cbv beta iota;
    change (py ": " ++ ?u) with (":"%char :: chr 32 :: u);
    (rewrite skip_ws_fixed by done); (rewrite decide_True by done);
    rewrite skip_ws_space, skip_ws_json_encode.
  - change ([] ≫= ?f) with (@nil ascii) in *. cbn [app length] in *.
    rewrite (Hv (S level) fuel) by (lia || apply ends_number_newline_indent).
    rewrite option_bind_Some; cbv beta iota. rewrite skip_ws_newline_indent.
    change (py "}" ++ rest) with ("}"%char :: rest).
    rewrite skip_ws_fixed by done. by rewrite decide_True.
  - rewrite bind_cons in *. unfold json_member at 1 in Hfuel.
    unfold json_member at 1. unfold json_string in *. cbn [fst snd] in *.
    repeat (rewrite <-app_assoc; cbn [app]).
    rewrite !length_app in Hfuel. cbn [length] in Hfuel.
    rewrite !length_app in Hfuel. cbn [length] in Hfuel.
    rewrite (Hv (S level) fuel) by (lia || apply ends_number_comma).
    rewrite option_bind_Some; cbv beta iota. rewrite skip_ws_fixed by done.
    rewrite decide_False by done. rewrite decide_True by done.
    rewrite skip_ws_newline_indent.
    rewrite skip_ws_fixed by done. rewrite decide_True by done.
    rewrite (IH k' v' fuel rest (acc ++ [(k, v)]) Hitems) by lia.
    by rewrite <-app_assoc.
Qed.

Lemma bind_fmap_members level (items : list (list ascii * pyval)) :
  ((json_member (S level) <$> items) ≫= λ y, (comma :: newline_indent (S level)) ++ y)
  = items ≫= λ kv, comma :: newline_indent (S level) ++ json_member (S level) kv.
Proof.
  induction items as [|kv items IH]; [done |].
  by rewrite fmap_cons, !bind_cons, IH.
Qed.

Lemma reads_back_dict items :
  NoDup items.*1 → Forall (λ kv, reads_back kv.2) items → reads_back (PDict items).
Proof.
  intros Hnd Hitems level fuel rest Hfuel Hrest.
  destruct items as [|[k v] items].
  { destruct fuel as [|fuel]; [simpl in Hfuel; lia | done]. }
  rewrite json_encode_dict in *.
  rewrite fmap_cons, join_bind, bind_fmap_members in *.
  unfold json_member at 1 in Hfuel. unfold json_member at 1.
  unfold json_string in *. cbn [fst snd] in *.
  pose proof (scan_members_text level items k v (pred fuel) rest [] Hitems) as Hscan.
  assert (Hlen : length (json_encode (S level) v)
                 + length (items ≫= λ kv, comma :: newline_indent (S level)
                                            ++ json_member (S level) kv) + 2 ≤ fuel).
  { cbn [length] in Hfuel. rewrite !length_app in Hfuel.
    cbn [length] in Hfuel. rewrite !length_app in Hfuel.
    change (length (py "}")) with 1 in Hfuel. lia. }
  destruct fuel as [|fuel]; [lia |].
  cbn [app]. rewrite scan_once_dict.
  repeat (rewrite <-app_assoc; cbn [app]).
  rewrite skip_ws_newline_indent.
  rewrite skip_ws_fixed by done. rewrite decide_False by done.
  rewrite decide_True by done. cbn [pred] in Hscan.
  rewrite Hscan by lia. cbn [app].
  by rewrite dict_of_items_NoDup.
Qed.

Lemma keys_distinct_list items :
  keys_distinct (PList items) ↔ Forall keys_distinct items.
Proof.
  simpl. induction items as [|v items IH]; simpl.
  - split; [constructor | done].
  - rewrite Forall_cons, IH. done.
Qed.

Lemma keys_distinct_dict items :
  keys_distinct (PDict items) ↔ NoDup items.*1 ∧ Forall (λ kv, keys_distinct kv.2) items.
Proof.
  simpl. apply and_iff_compat_l. induction items as [|kv items IH]; simpl.
  - split; [constructor | done].
  - rewrite Forall_cons, IH. done.
Qed.

(** Every value whose dictionaries have distinct keys is read back from
    its encoding. *)
Lemma keys_distinct_reads_back v : keys_distinct v → reads_back v.
Proof.
  induction v as [n|s|items IH|items IH] using pyval_ind_nested.
  - intros _. apply reads_back_int.
  - intros _. apply reads_back_str.
  - intros Hd%keys_distinct_list. apply reads_back_list.
    rewrite Forall_forall in *. auto.
  - intros [Hnd Hd]%keys_distinct_dict. apply reads_back_dict; [done |].
    rewrite Forall_forall in *. auto.
Qed.

Lemma json_loads_dumps v : keys_distinct v → json_loads (json_dumps v) = Some v.
Proof.
  intros Hv%keys_distinct_reads_back. unfold json_loads, json_dumps.
  pose proof (skip_ws_json_encode 0 v []) as Hskip. rewrite app_nil_r in Hskip.
  rewrite Hskip.
  pose proof (Hv 0 (length (json_encode 0 v)) []) as Hscan.
  rewrite app_nil_r in Hscan. rewrite Hscan; done.
Qed.

Lemma fmap_eq_inj {A B} (f : A → B) (l1 l2 : list A) :
  (∀ x y, f x = f y → x = y) → f <$> l1 = f <$> l2 → l1 = l2.
Proof.
  intros Hf. revert l2. induction l1 as [|x l1 IH]; intros [|y l2]; try done.
  rewrite !fmap_cons. intros [= Hxy Hl]. f_equal; auto.
Qed.

Lemma pages_value_inj ps1 ps2 : pages_value ps1 = pages_value ps2 → ps1 = ps2.
Proof.
  unfold pages_value. intros [= Heq]. apply (fmap_eq_inj PInt); [| done].
  by intros x y [= ->].
Qed.

Lemma mapping_value_inj m1 m2 : mapping_value m1 = mapping_value m2 → m1 = m2.
Proof.
  unfold mapping_value. intros [= Heq].
  apply (fmap_eq_inj (λ kv, (kv.1, pages_value kv.2))); [| done].
  intros [k1 v1] [k2 v2] [= -> Hv]. f_equal.
  apply pages_value_inj. unfold pages_value. by rewrite Hv.
Qed.

(** Different reports are different Python values. *)
Lemma report_value_inj d1 d2 : report_value d1 = report_value d2 → d1 = d2.
Proof.
  unfold report_value. intros [= Heq].
  apply (fmap_eq_inj (λ kv, (kv.1, mapping_value kv.2))); [| done].
  intros [k1 v1] [k2 v2] [= -> Hv]. f_equal.
  apply mapping_value_inj. unfold mapping_value. by rewrite Hv.
Qed.

Lemma keys_distinct_pages ps : keys_distinct (pages_value ps).
Proof.
  apply keys_distinct_list, Forall_fmap, Forall_forall. by intros n _.
Qed.

Lemma keys_distinct_mapping m : NoDup (dict_keys m) → keys_distinct (mapping_value m).
Proof.
  intros Hnd. apply keys_distinct_dict. split.
  - by rewrite <-list_fmap_compose.
  - apply Forall_fmap, Forall_forall. intros kv _. apply keys_distinct_pages.
Qed.

Lemma keys_distinct_report data :
  NoDup (dict_keys data) → Forall (λ kv, NoDup (dict_keys kv.2)) data →
  keys_distinct (report_value data).
Proof.
  intros Hnd Hall. apply keys_distinct_dict. split.
  - by rewrite <-list_fmap_compose.
  - apply Forall_fmap. eapply Forall_impl; [apply Hall |].
    intros kv Hkv. by apply keys_distinct_mapping.
Qed.


(** C8: the text [write_json] writes is the encoding of the report, and
    [json.loads] of that text is the report again: the same file names in
    the same order, each with the same keywords and page lists; no other
    report has that text.  It is written when the destination can be:
    [write_json] raises where [mkdir] or [write_text] does, and then
    writes no file.  The report is any mapping with distinct file names
    and distinct keywords per file, as every [dict] is. *)
Theorem write_json_round_trip fs data out_path trace :
  NoDup (dict_keys data) →
  Forall (λ kv, NoDup (dict_keys kv.2)) data →
  ∃ text,
    (writable (tree_after fs trace) out_path = true →
     write_json fs data out_path trace =
       (Ok (), trace ++ [Mkdir (path_parent out_path); WriteText out_path text])) ∧
    (∀ r trace', write_json fs data out_path trace = (r, trace') →
       (r = Ok () ∧
        trace' = trace ++ [Mkdir (path_parent out_path); WriteText out_path text]) ∨
       ((∃ e, r = Raise e) ∧ written_files trace' = written_files trace)) ∧
    json_loads text = Some (report_value data) ∧
    (∀ data', json_loads text = Some (report_value data') → data' = data).
Proof.
  intros Hnd Hall. exists (json_dumps (report_value data)).
  assert (Hload : json_loads (json_dumps (report_value data)) = Some (report_value data)).
  { by apply json_loads_dumps, keys_distinct_report. }
  split_and!; [| | done |].
  - intros Hw. unfold write_json, write_text. by apply mkdir_then_open_writable.
  - intros r trace'. unfold write_json, write_text. apply mkdir_then_open_cases.
  - intros data' Hdata'. rewrite Hload in Hdata'.
    apply report_value_inj. congruence.
Qed.

Lemma write_json_round_trip_witness :
  ∃ text,
    write_json sample_fs sample_report [py "out"; py "report.json"] [] =
      (Ok (), [] ++ [Mkdir (path_parent [py "out"; py "report.json"]);
                     WriteText [py "out"; py "report.json"] text]) ∧
    json_loads text = Some (report_value sample_report) ∧
    (∀ data', json_loads text = Some (report_value data') → data' = sample_report).
Proof.
  destruct (write_json_round_trip sample_fs sample_report [py "out"; py "report.json"] [])
    as (text & Hwritten & _ & Hloads).
  - by apply (bool_decide_unpack _).
  - by apply (bool_decide_unpack _).
  - exists text. split; [| exact Hloads].
    apply Hwritten. reflexivity.
Defined.

(** * Further properties *)

(** ** The keyword loader *)

Lemma pieces_app_separator a c b :
  is_separator c = true → pieces (a ++ c :: b) = pieces a ++ pieces b.
Proof.
  intros Hc. induction a as [|x a IH]; simpl.
  - by rewrite Hc.
  - rewrite IH. destruct (is_separator x); [done |].
    pose proof (pieces_nonempty a). by destruct (pieces a).
Qed.

(** A separator cuts the text, and the keyword list with it. *)
Lemma keywords_of_text_app_separator a c b :
  is_separator c = true →
  keywords_of_text (a ++ c :: b) = keywords_of_text a ++ keywords_of_text b.
Proof.
  intros Hc. unfold keywords_of_text.
  by rewrite pieces_app_separator, fmap_app, filter_app.
Qed.

Lemma drop_while_all p s : drop_while p s = [] ↔ Forall (λ c, p c = true) s.
Proof.
  induction s as [|c s IH]; simpl; [done |].
  destruct (p c) eqn:Hc.
  - rewrite IH, Forall_cons. naive_solver.
  - split; [done |]. intros [? _]%Forall_cons. congruence.
Qed.

Lemma drop_while_app_all p ws s :
  Forall (λ c, p c = true) ws → drop_while p (ws ++ s) = drop_while p s.
Proof. induction 1 as [|c ws Hc _ IH]; simpl; [done |]. by rewrite Hc. Qed.

Lemma drop_while_split p s :
  ∃ ws, s = ws ++ drop_while p s ∧ Forall (λ c, p c = true) ws.
Proof.
  induction s as [|c s (ws & Hs & Hws)]; simpl; [by exists [] |].
  destruct (p c) eqn:Hc; [| by exists []].
  exists (c :: ws). split; [simpl; by f_equal | by constructor].
Qed.

Lemma strip_app_space ws s :
  Forall (λ c, isspace c = true) ws → strip (ws ++ s) = strip s.
Proof. intros Hws. unfold strip, lstrip. by rewrite drop_while_app_all. Qed.

(** Only white space trims to nothing. *)
Lemma strip_nil s : strip s = [] ↔ Forall (λ c, isspace c = true) s.
Proof.
  unfold strip, rstrip, lstrip.
  destruct (drop_while_split isspace s) as (ws & Hs & Hws).
  split.
  - intros Hnil. apply (f_equal reverse) in Hnil.
    rewrite reverse_involutive in Hnil. change (reverse []) with (@nil ascii) in Hnil.
    apply drop_while_all in Hnil. rewrite Forall_reverse in Hnil.
    rewrite Hs. apply Forall_app. by split.
  - intros Hall. apply drop_while_all in Hall. rewrite Hall. done.
Qed.

Lemma trimmed_nonempty_nil l :
  trimmed_nonempty l = [] ↔ Forall (Forall (λ c, isspace c = true)) l.
Proof.
  unfold trimmed_nonempty. induction l as [|p l IH]; csimpl; [done |].
  rewrite filter_cons, Forall_cons, <-strip_nil.
  destruct (decide (strip p ≠ [])) as [Hne|Heq%dec_stable]; [naive_solver |].
  rewrite IH. naive_solver.
Qed.

Lemma pieces_all_space text :
  Forall (Forall (λ c, isspace c = true)) (pieces text) ↔
  Forall (λ c, is_blank c = true) text.
Proof.
  unfold is_blank. induction text as [|c text IH]; simpl.
  - split; [constructor | by repeat constructor].
  - rewrite (Forall_cons _ c text), <-IH.
    pose proof (pieces_nonempty text) as Hne.
    destruct (is_separator c); simpl.
    + rewrite Forall_cons. naive_solver.
    + destruct (pieces text) as [|p ps]; [done |].
      rewrite !Forall_cons. naive_solver.
Qed.

(** X1: the loader returns no keyword exactly when the file holds nothing
    but separators and white space. *)
Theorem load_keywords_none fs path text :
  read_text fs path = Ok text →
  (load_keywords fs path = Ok [] ↔ Forall (λ c, is_blank c = true) text).
Proof.
  intros Hread. rewrite (load_keywords_of_text fs path text Hread).
  rewrite <-pieces_all_space, <-trimmed_nonempty_nil.
  unfold keywords_of_text, trimmed_nonempty. split; [by intros [= ->] | by intros ->].
Qed.

Lemma load_keywords_none_witness :
  load_keywords (text_file_fs (py " , ,," ++ [newline; chr 9] ++ py " ,")) keywords_path = Ok [] ↔
  Forall (λ c, is_blank c = true) (py " , ,," ++ [newline; chr 9] ++ py " ,").
Proof.
  apply (load_keywords_none (text_file_fs (py " , ,," ++ [newline; chr 9] ++ py " ,"))
           keywords_path).
  reflexivity.
Defined.

Lemma keywords_of_text_keyword k : well_formed_keyword k → keywords_of_text k = [k].
Proof.
  intros (Hne & Hstrip & Hsep). unfold keywords_of_text.
  pose proof (pieces_app_no_separator k [] Hsep) as Hp.
  simpl in Hp. rewrite !app_nil_r in Hp. rewrite Hp. csimpl.
  rewrite Hstrip. by rewrite filter_cons_True.
Qed.

Lemma keywords_of_text_app_space ws text :
  Forall (λ c, isspace c = true ∧ is_separator c = false) ws →
  keywords_of_text (ws ++ text) = keywords_of_text text.
Proof.
  intros Hws. unfold keywords_of_text.
  rewrite pieces_app_no_separator by (eapply Forall_impl; [done | naive_solver]).
  pose proof (pieces_nonempty text). destruct (pieces text) as [|p ps]; [done |].
  csimpl. rewrite strip_app_space; [done |].
  eapply Forall_impl; [done | naive_solver].
Qed.

Lemma keywords_of_text_join c ws ks :
  is_separator c = true →
  Forall (λ c, isspace c = true ∧ is_separator c = false) ws →
  Forall well_formed_keyword ks →
  keywords_of_text (join (c :: ws) ks) = ks.
Proof.
  intros Hc Hws. induction 1 as [|k ks Hk Hks IH]; [done |].
  destruct ks as [|k' ks].
  - by apply keywords_of_text_keyword.
  - change (join (c :: ws) (k :: k' :: ks))
      with (k ++ c :: (ws ++ join (c :: ws) (k' :: ks))).
    rewrite keywords_of_text_app_separator by done.
    rewrite keywords_of_text_app_space by done.
    by rewrite keywords_of_text_keyword, IH.
Qed.

(** X2: writing keywords one after the other, with a comma or a newline
    between them and any white space after it, and loading the file gives
    the keywords back: same order, same case, inner spaces kept. *)
Theorem load_keywords_join fs path c ws ks :
  read_text fs path = Ok (join (c :: ws) ks) →
  is_separator c = true →
  Forall (λ c, isspace c = true ∧ is_separator c = false) ws →
  Forall well_formed_keyword ks →
  load_keywords fs path = Ok ks.
Proof.
  intros Hread Hc Hws Hks.
  rewrite (load_keywords_of_text fs path _ Hread).
  by rewrite keywords_of_text_join.
Qed.

Lemma load_keywords_join_witness :
  load_keywords
    (text_file_fs (join (py ", ") [py "Net Income"; py "tax"; py "Tax"; py "a.b"]))
    keywords_path
  = Ok [py "Net Income"; py "tax"; py "Tax"; py "a.b"].
Proof.
  apply (load_keywords_join _ _ comma [chr 32]).
  - reflexivity.
  - reflexivity.
  - repeat constructor.
  - repeat constructor; discriminate.
Defined.

(** X3: a separator cuts the file in two: the keywords of the whole are
    those of the part before it followed by those of the part after it. *)
Theorem load_keywords_app fs fs1 fs2 path a c b :
  is_separator c = true →
  read_text fs path = Ok (a ++ c :: b) →
  read_text fs1 path = Ok a →
  read_text fs2 path = Ok b →
  ∃ ka kb, load_keywords fs1 path = Ok ka ∧ load_keywords fs2 path = Ok kb ∧
    load_keywords fs path = Ok (ka ++ kb).
Proof.
  intros Hc Hread Ha Hb. exists (keywords_of_text a), (keywords_of_text b).
  rewrite (load_keywords_of_text fs path _ Hread).
  rewrite (load_keywords_of_text fs1 path _ Ha).
  rewrite (load_keywords_of_text fs2 path _ Hb).
  by rewrite keywords_of_text_app_separator.
Qed.

Lemma load_keywords_app_witness :
  ∃ ka kb,
    load_keywords (text_file_fs (py "tax, vat")) keywords_path = Ok ka ∧
    load_keywords (text_file_fs (py "net income")) keywords_path = Ok kb ∧
    load_keywords (text_file_fs (py "tax, vat" ++ newline :: py "net income")) keywords_path
      = Ok (ka ++ kb).
Proof.
  apply (load_keywords_app _ _ _ keywords_path (py "tax, vat") newline (py "net income"));
    reflexivity.
Defined.

(** ** The per-file searcher *)

Lemma search_pdf_raises fs file_path keywords e :
  search_pdf fs file_path keywords = Raise e ↔ PdfReader fs file_path = Raise e.
Proof.
  destruct (PdfReader fs file_path) as [pages|e'] eqn:Hopen.
  - destruct (search_pdf_spec fs file_path pages keywords Hopen) as (m & -> & _).
    done.
  - unfold search_pdf. rewrite Hopen. simpl. split; by intros [= ->].
Qed.

(** X4: [search_pdf] raises exactly when the reader cannot open the file,
    and raises the reader's exception: compiling the escaped keywords and
    the look-ups in the result dictionary never fail. *)
Theorem search_pdf_fails_only_on_open fs file_path keywords e :
  search_pdf fs file_path keywords = Raise e ↔ PdfReader fs file_path = Raise e.
Proof. apply search_pdf_raises. Qed.

Lemma sorted_lt_ext (l1 l2 : list nat) :
  StronglySorted lt l1 → StronglySorted lt l2 → (∀ x, x ∈ l1 ↔ x ∈ l2) → l1 = l2.
Proof.
  intros H1 H2 Heq.
  assert (AntiSymm (=) lt) by (intros x y ??; lia).
  apply (StronglySorted_unique lt); [done | done |].
  apply NoDup_Permutation; [by apply StronglySorted_lt_NoDup .. | done].
Qed.

Lemma dict_ext {V} (m1 m2 : list (list ascii * V)) :
  dict_keys m1 = dict_keys m2 → NoDup (dict_keys m1) →
  (∀ k, k ∈ dict_keys m1 → dict_get k m1 = dict_get k m2) → m1 = m2.
Proof.
  revert m2. induction m1 as [|[k1 v1] m1 IH]; intros [|[k2 v2] m2]; try done.
  simpl. intros [= <- Hkeys] [Hk1 Hnd]%NoDup_cons Hget.
  pose proof (Hget k1 ltac:(by left)) as Hv. rewrite !decide_True in Hv by done.
  injection Hv as <-. f_equal. apply IH; [done | done |].
  intros k Hk. specialize (Hget k ltac:(by right)).
  rewrite !decide_False in Hget by (intros ->; exact (Hk1 Hk)). done.
Qed.

Lemma occurs_lower k k' text :
  lower k = lower k' → occurs_ignoring_case k text → occurs_ignoring_case k' text.
Proof. intros Heq (pre & mid & post & -> & Hmid). exists pre, mid, post. by rewrite <-Heq. Qed.

(** X5: the page list of a keyword depends on the document and on the
    keyword with its case ignored, and on nothing else: not on the other
    keywords searched with it, their number or their order. *)
Theorem search_pdf_keyword_alone fs file_path pages keywords1 keywords2 k1 k2 :
  PdfReader fs file_path = Ok pages →
  k1 ∈ keywords1 → k2 ∈ keywords2 → lower k1 = lower k2 →
  ∃ m1 m2 ps,
    search_pdf fs file_path keywords1 = Ok m1 ∧
    search_pdf fs file_path keywords2 = Ok m2 ∧
    dict_get k1 m1 = Some ps ∧ dict_get k2 m2 = Some ps.
Proof.
  intros Hopen Hk1 Hk2 Hlower.
  destruct (search_pdf_spec fs file_path pages keywords1 Hopen) as (m1 & Hm1 & _ & Hv1).
  destruct (search_pdf_spec fs file_path pages keywords2 Hopen) as (m2 & Hm2 & _ & Hv2).
  destruct (Hv1 k1 Hk1) as (ps1 & Hps1 & Hs1 & Hmem1).
  destruct (Hv2 k2 Hk2) as (ps2 & Hps2 & Hs2 & Hmem2).
  exists m1, m2, ps1. split_and!; [done | done | done |].
  rewrite Hps2. f_equal. apply sorted_lt_ext; [done | done |].
  intros p. rewrite Hmem1, Hmem2.
  split; intros (i & Hi & -> & Hne & Hocc); exists i; split_and!; try done.
  - apply (occurs_lower k2); [by symmetry | done].
  - by apply (occurs_lower k1).
Qed.

Lemma search_pdf_keyword_alone_witness :
  ∃ m1 m2 ps,
    search_pdf sample_fs invoice_path [py "terms"; py "Invoice"] = Ok m1 ∧
    search_pdf sample_fs invoice_path [py "INVOICE"] = Ok m2 ∧
    dict_get (py "Invoice") m1 = Some ps ∧ dict_get (py "INVOICE") m2 = Some ps.
Proof.
  apply (search_pdf_keyword_alone sample_fs invoice_path invoice_pages).
  - reflexivity.
  - right. left.
  - left.
  - reflexivity.
Defined.

Lemma occurs_trans k1 k2 text :
  occurs_ignoring_case k1 k2 → occurs_ignoring_case k2 text →
  occurs_ignoring_case k1 text.
Proof.
  intros (a & m & b & -> & Hm) (pre & mid & post & -> & Hmid).
  unfold lower in Hmid. rewrite !fmap_app in Hmid.
  apply fmap_app_inv in Hmid as (a' & rest & Ha & Hrest & ->).
  symmetry in Hrest. apply fmap_app_inv in Hrest as (m' & b' & Hm' & Hb & ->).
  exists (pre ++ a'), m', (b' ++ post). split.
  - by rewrite <-!app_assoc.
  - unfold lower in *. congruence.
Qed.

(** X6: a keyword that occurs, case ignored, inside another one is found
    on every page the longer one is found on. *)
Theorem search_pdf_inner_keyword fs file_path pages keywords k1 k2 :
  PdfReader fs file_path = Ok pages →
  k1 ∈ keywords → k2 ∈ keywords → occurs_ignoring_case k1 k2 →
  ∃ m ps1 ps2,
    search_pdf fs file_path keywords = Ok m ∧
    dict_get k1 m = Some ps1 ∧ dict_get k2 m = Some ps2 ∧ ps2 ⊆ ps1.
Proof.
  intros Hopen Hk1 Hk2 Hocc.
  destruct (search_pdf_spec fs file_path pages keywords Hopen) as (m & Hm & _ & Hv).
  destruct (Hv k1 Hk1) as (ps1 & Hps1 & _ & Hmem1).
  destruct (Hv k2 Hk2) as (ps2 & Hps2 & _ & Hmem2).
  exists m, ps1, ps2. split_and!; [done | done | done |].
  intros p. rewrite Hmem1, Hmem2.
  intros (i & Hi & -> & Hne & Hocc2). exists i. split_and!; [done | done | done |].
  by apply (occurs_trans k1 k2).
Qed.

Lemma search_pdf_inner_keyword_witness :
  ∃ m ps1 ps2,
    search_pdf sample_fs damaged_path [py "Paid Invoice"; py "VOICE"] = Ok m ∧
    dict_get (py "VOICE") m = Some ps1 ∧ dict_get (py "Paid Invoice") m = Some ps2 ∧
    ps2 ⊆ ps1.
Proof.
  apply (search_pdf_inner_keyword sample_fs damaged_path damaged_pages).
  - reflexivity.
  - right. left.
  - left.
  - exists (py "Paid In"), (py "voice"), []. split; reflexivity.
Defined.

(** X7: a document none of whose pages gives a text (no page at all,
    extraction raising or returning nothing everywhere) yields every
    keyword, at its first occurrence, with the empty list. *)
Theorem search_pdf_no_text fs file_path pages keywords :
  PdfReader fs file_path = Ok pages →
  (∀ i, page_text pages i = []) →
  search_pdf fs file_path keywords = Ok ((λ k, (k, [])) <$> first_occurrences keywords).
Proof.
  intros Hopen Htext.
  destruct (search_pdf_spec fs file_path pages keywords Hopen) as (m & Hm & Hkeys & Hv).
  rewrite Hm. f_equal. apply dict_ext.
  - rewrite Hkeys. unfold dict_keys. rewrite <-list_fmap_compose. by rewrite list_fmap_id.
  - rewrite Hkeys. apply NoDup_first_occurrences.
  - intros k Hk. rewrite Hkeys in Hk.
    pose proof (proj1 (elem_of_first_occurrences k keywords) Hk) as Hk'.
    destruct (Hv k Hk') as (ps & Hps & _ & Hmem). rewrite Hps.
    assert (ps = []) as ->.
    { destruct ps as [|p ps]; [done |].
      destruct (proj1 (Hmem p) ltac:(by left)) as (i & _ & _ & Hne & _).
      by destruct (Hne (Htext i)). }
    symmetry. apply dict_elem_of_get.
    + unfold dict_keys. rewrite <-list_fmap_compose, list_fmap_id.
      apply NoDup_first_occurrences.
    + by apply (list_elem_of_fmap_2 (λ k, (k, [])) _ k).
Qed.

Lemma search_pdf_no_text_witness :
  search_pdf archive_fs [py "blank.pdf"] [py "tax"; py "vat"; py "tax"]
  = Ok ((λ k, (k, [])) <$> first_occurrences [py "tax"; py "vat"; py "tax"]).
Proof.
  apply (search_pdf_no_text archive_fs [py "blank.pdf"] blank_pages).
  - reflexivity.
  - intros [|[|[|i]]]; reflexivity.
Defined.

Lemma page_text_textless pages i e :
  pages !! i = Some e → textless e → page_text pages i = [].
Proof. unfold page_text. intros -> [->|[->| ->]]; done. Qed.

(** X8: extraction raising, returning [None] and returning the empty
    string are one and the same to the searcher: putting one for another
    at a page changes nothing in the result, and that page is in no
    keyword's list. *)
Theorem search_pdf_textless_page fs fs' file_path file_path' pages keywords i e e' :
  PdfReader fs file_path = Ok pages →
  pages !! i = Some e → textless e → textless e' →
  PdfReader fs' file_path' = Ok (<[i := e']> pages) →
  ∃ m, search_pdf fs file_path keywords = Ok m ∧
       search_pdf fs' file_path' keywords = Ok m ∧
       ∀ k ps, dict_get k m = Some ps → i + 1 ∉ ps.
Proof.
  intros Hopen Hi He He' Hopen'.
  pose proof (page_text_textless pages i e Hi He) as Htext.
  destruct (search_pdf_spec fs file_path pages keywords Hopen) as (m & Hm & Hkeys & Hv).
  exists m. split_and!; [done | |].
  - rewrite <-Hm. symmetry.
    apply (search_pdf_ext fs fs' file_path file_path' pages _ keywords Hopen Hopen').
    + by rewrite length_insert.
    + intros j. destruct (decide (i = j)) as [<-|Hne].
      * rewrite Htext. symmetry. apply (page_text_textless _ i e'); [| done].
        apply list_lookup_insert_eq. by apply lookup_lt_Some in Hi.
      * unfold page_text. by rewrite list_lookup_insert_ne.
  - intros k ps Hps Hin.
    assert (Hk : k ∈ keywords).
    { apply elem_of_first_occurrences. rewrite <-Hkeys.
      apply dict_get_is_Some. by exists ps. }
    destruct (Hv k Hk) as (ps' & Hps' & _ & Hmem).
    assert (ps' = ps) as -> by congruence.
    apply Hmem in Hin as (j & _ & Heq & Hne & _).
    assert (j = i) as -> by lia. done.
Qed.

Lemma search_pdf_textless_page_witness :
  ∃ m, search_pdf sample_fs damaged_path [py "invoice"] = Ok m ∧
       search_pdf (Filesystem Posix (λ _, Some (File None
                     (Readable (<[1 := ExtractNone]> damaged_pages)))))
                  [py "copy.pdf"] [py "invoice"] = Ok m ∧
       ∀ k ps, dict_get k m = Some ps → 1 + 1 ∉ ps.
Proof.
  apply (search_pdf_textless_page sample_fs _ damaged_path [py "copy.pdf"]
           damaged_pages [py "invoice"] 1 ExtractRaises ExtractNone).
  - reflexivity.
  - reflexivity.
  - by left.
  - right. by left.
  - reflexivity.
Defined.

Lemma page_text_app_l pages1 pages2 i :
  i < length pages1 → page_text (pages1 ++ pages2) i = page_text pages1 i.
Proof. intros Hi. unfold page_text. by rewrite lookup_app_l. Qed.

Lemma page_text_app_r pages1 pages2 i :
  length pages1 ≤ i →
  page_text (pages1 ++ pages2) i = page_text pages2 (i - length pages1).
Proof. intros Hi. unfold page_text. by rewrite lookup_app_r. Qed.

(** X9: for two documents bound into one, a keyword's page list is its
    list in the first document followed by its list in the second one,
    each page number moved up by the page count of the first. *)
Theorem search_pdf_append fs path1 path2 path12 pages1 pages2 keywords k :
  PdfReader fs path1 = Ok pages1 →
  PdfReader fs path2 = Ok pages2 →
  PdfReader fs path12 = Ok (pages1 ++ pages2) →
  k ∈ keywords →
  ∃ m1 m2 m12 ps1 ps2,
    search_pdf fs path1 keywords = Ok m1 ∧ dict_get k m1 = Some ps1 ∧
    search_pdf fs path2 keywords = Ok m2 ∧ dict_get k m2 = Some ps2 ∧
    search_pdf fs path12 keywords = Ok m12 ∧
    dict_get k m12 = Some (ps1 ++ ((λ p, length pages1 + p) <$> ps2)).
Proof.
  intros Hopen1 Hopen2 Hopen12 Hk.
  destruct (search_pdf_spec fs path1 pages1 keywords Hopen1) as (m1 & Hm1 & _ & Hv1).
  destruct (search_pdf_spec fs path2 pages2 keywords Hopen2) as (m2 & Hm2 & _ & Hv2).
  destruct (search_pdf_spec fs path12 _ keywords Hopen12) as (m12 & Hm12 & _ & Hv12).
  destruct (Hv1 k Hk) as (ps1 & Hps1 & Hs1 & Hmem1).
  destruct (Hv2 k Hk) as (ps2 & Hps2 & Hs2 & Hmem2).
  destruct (Hv12 k Hk) as (ps & Hps & Hs & Hmem).
  exists m1, m2, m12, ps1, ps2. split_and!; [done.. |].
  rewrite Hps. f_equal. apply sorted_lt_ext; [done | |].
  - apply StronglySorted_app. split_and!; [| done |].
    + intros x1 x2 (i & Hi & -> & _)%Hmem1 (p & -> & Hp)%list_elem_of_fmap.
      apply Hmem2 in Hp as (j & _ & -> & _). lia.
    + eapply StronglySorted_fmap; [| done]. intros x y. lia.
  - intros p. rewrite Hmem, elem_of_app, list_elem_of_fmap, Hmem1.
    rewrite length_app. split.
    + intros (i & Hi & -> & Hne & Hocc).
      destruct (decide (i < length pages1)) as [Hlt|Hge].
      * left. exists i. rewrite page_text_app_l in Hne, Hocc by done. done.
      * right. exists (i - length pages1 + 1). split; [lia |].
        apply Hmem2. exists (i - length pages1).
        rewrite page_text_app_r in Hne, Hocc by lia.
        split_and!; [lia | done | done | done].
    + intros [(i & Hi & -> & Hne & Hocc)|(q & -> & (j & Hj & -> & Hne & Hocc)%Hmem2)].
      * exists i. rewrite page_text_app_l by done. split_and!; [lia | done..].
      * exists (length pages1 + j).
        rewrite page_text_app_r by lia.
        replace (length pages1 + j - length pages1) with j by lia.
        split_and!; [lia | lia | done | done].
Qed.

Lemma search_pdf_append_witness :
  ∃ m1 m2 m12 ps1 ps2,
    search_pdf archive_fs [py "a.pdf"] [py "invoice"] = Ok m1 ∧
    dict_get (py "invoice") m1 = Some ps1 ∧
    search_pdf archive_fs [py "b.pdf"] [py "invoice"] = Ok m2 ∧
    dict_get (py "invoice") m2 = Some ps2 ∧
    search_pdf archive_fs [py "ab.pdf"] [py "invoice"] = Ok m12 ∧
    dict_get (py "invoice") m12
      = Some (ps1 ++ ((λ p, length invoice_pages + p) <$> ps2)).
Proof.
  apply (search_pdf_append archive_fs [py "a.pdf"] [py "b.pdf"] [py "ab.pdf"]
           invoice_pages damaged_pages).
  - reflexivity.
  - reflexivity.
  - reflexivity.
  - left.
Defined.

(** ** The aggregator *)

Lemma run_search_from_raises fs pdf_paths keywords acc e :
  run_search_from fs pdf_paths keywords acc = Raise e ↔
  ∃ opened p rest,
    pdf_paths = opened ++ p :: rest ∧
    Forall (λ q, ∃ pages, PdfReader fs q = Ok pages) opened ∧
    PdfReader fs p = Raise e.
Proof.
  revert acc. induction pdf_paths as [|q pdf_paths IH]; intros acc; simpl.
  - split; [done |]. by intros ([|??] & ? & ? & ? & _).
  - destruct (search_pdf fs q keywords) as [found|e'] eqn:Hq; simpl.
    + assert (Hopen : ∃ pages, PdfReader fs q = Ok pages).
      { destruct (PdfReader fs q) as [pages|e''] eqn:Hopen; [eauto |].
        apply (search_pdf_raises fs q keywords) in Hopen. congruence. }
      rewrite IH. split.
      * intros (opened & p & rest & -> & Hopened & Hp).
        exists (q :: opened), p, rest. split_and!; [done | by constructor | done].
      * intros ([|q' opened] & p & rest & Heq & Hopened & Hp); simplify_eq/=.
        -- destruct Hopen as [pages Hopen]. congruence.
        -- apply Forall_cons in Hopened as [_ Hopened]. by exists opened, p, rest.
    + apply search_pdf_raises in Hq. split.
      * intros [= ->]. by exists [], q, pdf_paths.
      * intros ([|q' opened] & p & rest & Heq & Hopened & Hp); simplify_eq/=.
        -- congruence.
        -- apply Forall_cons in Hopened as [[pages Hopen] _]. congruence.
Qed.

(** X10: [run_search] raises exactly when some file cannot be opened, and
    what it raises is the exception of the first such file in the list;
    nothing of the files searched before it is returned. *)
Theorem run_search_fails_on_first_unreadable fs pdf_paths keywords e :
  run_search fs pdf_paths keywords = Raise e ↔
  ∃ opened p rest,
    pdf_paths = opened ++ p :: rest ∧
    Forall (λ q, ∃ pages, PdfReader fs q = Ok pages) opened ∧
    PdfReader fs p = Raise e.
Proof. apply run_search_from_raises. Qed.

Lemma run_search_from_get fs pdf_paths keywords acc data name :
  run_search_from fs pdf_paths keywords acc = Ok data →
  name ∉ path_name <$> pdf_paths → dict_get name data = dict_get name acc.
Proof.
  revert acc. induction pdf_paths as [|q pdf_paths IH]; intros acc; simpl.
  - by intros [= ->].
  - destruct (search_pdf fs q keywords) as [found|e'] eqn:Hq; [| done]. simpl.
    intros Hrun Hname. rewrite (IH _ Hrun).
    + rewrite dict_get_set. rewrite decide_False; [done |].
      intros Heq. apply Hname. rewrite <-Heq. by left.
    + intros ?. apply Hname. by right.
Qed.

(** X11: the aggregate is keyed by base name, and the last path with a
    given base name wins: its mapping is the one the aggregate holds for
    that name, whatever the earlier paths of that name gave. *)
Theorem run_search_last_wins fs before p after keywords data :
  run_search fs (before ++ p :: after) keywords = Ok data →
  path_name p ∉ path_name <$> after →
  ∃ found, search_pdf fs p keywords = Ok found ∧
           dict_get (path_name p) data = Some found.
Proof.
  unfold run_search. generalize (@nil (list ascii * list (list ascii * list nat))).
  induction before as [|q before IH]; intros acc; simpl.
  - destruct (search_pdf fs p keywords) as [found|e'] eqn:Hp; [| done]. simpl.
    intros Hrun Hname. exists found. split; [done |].
    rewrite (run_search_from_get _ _ _ _ _ _ Hrun Hname).
    rewrite dict_get_set. by rewrite decide_True.
  - destruct (search_pdf fs q keywords) as [found|e'] eqn:Hq; [| done]. simpl.
    apply IH.
Qed.

Lemma run_search_last_wins_witness :
  ∃ found, search_pdf archive_fs [py "sub"; py "a.pdf"] [py "invoice"] = Ok found ∧
    dict_get (path_name [py "sub"; py "a.pdf"])
      [(py "a.pdf", [(py "invoice", [1; 3])]); (py "b.pdf", [(py "invoice", [1; 3])])]
    = Some found.
Proof.
  apply (run_search_last_wins archive_fs [[py "a.pdf"]] [py "sub"; py "a.pdf"] [[py "b.pdf"]]
           [py "invoice"]).
  - reflexivity.
  - by apply (bool_decide_unpack _).
Defined.

Lemma run_search_from_opens fs pdf_paths keywords acc :
  Forall (λ q, ∃ pages, PdfReader fs q = Ok pages) pdf_paths →
  ∃ data, run_search_from fs pdf_paths keywords acc = Ok data.
Proof.
  intros Hall. revert acc. induction Hall as [|q pdf_paths [pages Hq] _ IH]; intros acc.
  - by exists acc.
  - simpl. destruct (search_pdf_spec fs q pages keywords Hq) as (m & -> & _).
    simpl. apply IH.
Qed.

(** X12: when the reader opens every file, [run_search] returns an
    aggregate; its keys are the base names of the paths at their first
    occurrence, and every file's mapping has the keywords at their first
    occurrence as keys. *)
Theorem run_search_all_readable fs pdf_paths keywords :
  Forall (λ q, ∃ pages, PdfReader fs q = Ok pages) pdf_paths →
  ∃ data, run_search fs pdf_paths keywords = Ok data ∧
    dict_keys data = first_occurrences (path_name <$> pdf_paths) ∧
    Forall (λ kv, dict_keys kv.2 = first_occurrences keywords) data.
Proof.
  intros Hall.
  destruct (run_search_from_opens fs pdf_paths keywords [] Hall) as [data Hdata].
  exists data. split; [done |]. by apply (run_search_spec fs pdf_paths keywords).
Qed.

Lemma run_search_all_readable_witness :
  ∃ data,
    run_search archive_fs [[py "a.pdf"]; [py "empty.pdf"]; [py "sub"; py "a.pdf"]]
      [py "terms"; py "terms"] = Ok data ∧
    dict_keys data
      = first_occurrences
          (path_name <$> [[py "a.pdf"]; [py "empty.pdf"]; [py "sub"; py "a.pdf"]]) ∧
    Forall (λ kv, dict_keys kv.2 = first_occurrences [py "terms"; py "terms"]) data.
Proof.
  apply (run_search_all_readable archive_fs).
  repeat constructor; eexists; reflexivity.
Defined.

(** ** The path resolver *)

(** X13: in directory mode a directory that does not exist raises
    [FileNotFoundError], and a path that is a regular file raises
    [NotADirectoryError] when its entries are listed. *)
Theorem gather_pdf_paths_bad_directory fs dir :
  (fs_node fs dir = None →
   gather_pdf_paths fs (Some dir) None = Raise FileNotFoundError) ∧
  (∀ text doc, fs_node fs dir = Some (File text doc) →
   gather_pdf_paths fs (Some dir) None = Raise NotADirectoryError).
Proof.
  split.
  - intros Hdir. unfold gather_pdf_paths, path_exists. rewrite Hdir.
    rewrite bool_decide_eq_false_2; [done |]. by intros [? ?].
  - intros text doc Hdir. unfold gather_pdf_paths, path_exists, iterdir. rewrite Hdir.
    rewrite bool_decide_eq_true_2 by eauto. done.
Qed.

Lemma gather_pdf_paths_bad_directory_witness :
  gather_pdf_paths sample_fs (Some [py "missing"]) None = Raise FileNotFoundError ∧
  gather_pdf_paths sample_fs (Some [py "keywords.txt"]) None = Raise NotADirectoryError.
Proof.
  split.
  - apply (proj1 (gather_pdf_paths_bad_directory sample_fs [py "missing"])).
    reflexivity.
  - apply (proj2 (gather_pdf_paths_bad_directory sample_fs [py "keywords.txt"])
             (Some sample_keywords) Unreadable).
    reflexivity.
Defined.

Lemma rfind_from_notin c s i found : c ∉ s → rfind_from c s i found = found.
Proof.
  revert i found. induction s as [|x s IH]; intros i found Hc; simpl; [done |].
  rewrite IH by (intros ?; apply Hc; by right).
  rewrite decide_False; [done |]. intros ->. apply Hc. by left.
Qed.

Lemma rfind_from_last c a b i found :
  c ∉ b → rfind_from c (a ++ c :: b) i found = Some (i + length a).
Proof.
  intros Hb. revert i found. induction a as [|x a IH]; intros i found; simpl.
  - rewrite rfind_from_notin by done. rewrite decide_True by done. f_equal. lia.
  - rewrite IH. f_equal. lia.
Qed.

(** [rfind] gives the place of the last occurrence. *)
Lemma rfind_spec c s :
  match rfind c s with
  | Some j => ∃ a b, s = a ++ c :: b ∧ (c ∉ b) ∧ j = length a
  | None => c ∉ s
  end.
Proof.
  unfold rfind. destruct (decide (c ∈ s)) as [Hin|Hnin].
  - apply list_elem_of_split_r in Hin as (a & b & -> & Hb).
    rewrite rfind_from_last by done. by exists a, b.
  - by rewrite rfind_from_notin.
Qed.

Lemma lower_pdf_no_dot ext : lower ext = py "pdf" → (dot ∉ ext) ∧ length ext = 3.
Proof.
  intros Hext. split.
  - intros Hin. apply (list_elem_of_fmap_2 lower_char) in Hin.
    unfold lower in Hext. rewrite Hext in Hin.
    by apply (bool_decide_unpack (dot ∉ py "pdf")).
  - apply (f_equal length) in Hext. unfold lower in Hext.
    by rewrite length_fmap in Hext.
Qed.

(** The names the directory filter keeps: a stem that is not empty, a
    dot, and "pdf" in any case. *)
Lemma suffix_is_pdf n :
  lower (suffix [n]) = py ".pdf" ↔
  ∃ stem ext, n = stem ++ dot :: ext ∧ stem ≠ [] ∧ lower ext = py "pdf".
Proof.
  unfold suffix. change (path_name [n]) with n.
  pose proof (rfind_spec dot n) as Hspec. split.
  - destruct (rfind dot n) as [j|]; [| done].
    destruct Hspec as (a & b & -> & Hb & ->).
    destruct ((0 <? length a) && (length a <? length (a ++ dot :: b) - 1)) eqn:Hcond;
      [| done].
    rewrite drop_app_length. intros [= Hlower].
    apply andb_true_iff in Hcond as [Ha%Nat.ltb_lt _].
    exists a, b. split_and!; [done | by destruct a; simpl in Ha; [lia |] | done].
  - intros (stem & ext & -> & Hstem & Hext).
    destruct (lower_pdf_no_dot ext Hext) as [Hdot Hlen].
    unfold rfind in *. rewrite rfind_from_last by done.
    change (0 + length stem) with (length stem).
    assert (0 < length stem) by (destruct stem; [done | simpl; lia]).
    replace ((0 <? length stem) && (length stem <? length (stem ++ dot :: ext) - 1))
      with true.
    + rewrite drop_app_length. unfold lower in *. by rewrite fmap_cons, Hext.
    + symmetry. apply andb_true_iff. rewrite length_app. cbn [length].
      split; apply Nat.ltb_lt; lia.
Qed.

(** X14: in directory mode the resolver returns the children whose name
    is a non-empty stem, a dot and "pdf" in any case, and only those:
    a name that is just ".pdf", or that has anything after "pdf", is left
    out. *)
Theorem gather_pdf_paths_kept fs dir names :
  fs_node fs dir = Some (Directory names) →
  ∃ paths, gather_pdf_paths fs (Some dir) None = Ok paths ∧
    ∀ p, p ∈ paths ↔
         ∃ stem ext, p = dir ++ [stem ++ dot :: ext] ∧ stem ++ dot :: ext ∈ names ∧
                     stem ≠ [] ∧ lower ext = py "pdf".
Proof.
  intros Hdir. eexists. split; [by apply gather_pdf_paths_names |].
  intros p. rewrite list_elem_of_fmap. split.
  - intros (n & -> & Hn). rewrite sorted_Permutation in Hn.
    apply list_elem_of_filter in Hn as [(stem & ext & -> & ? & ?)%suffix_is_pdf Hn].
    by exists stem, ext.
  - intros (stem & ext & -> & Hn & Hstem & Hext).
    exists (stem ++ dot :: ext). split; [done |].
    rewrite sorted_Permutation. apply list_elem_of_filter. split; [| done].
    apply suffix_is_pdf. by exists stem, ext.
Qed.

Lemma gather_pdf_paths_kept_witness :
  ∃ paths, gather_pdf_paths (mixed_case_fs Windows) (Some [py "docs"]) None = Ok paths ∧
    ∀ p, p ∈ paths ↔
         ∃ stem ext, p = [py "docs"] ++ [stem ++ dot :: ext] ∧
                     stem ++ dot :: ext ∈ mixed_case_names ∧
                     stem ≠ [] ∧ lower ext = py "pdf".
Proof.
  apply (gather_pdf_paths_kept (mixed_case_fs Windows) [py "docs"] mixed_case_names).
  reflexivity.
Defined.

Lemma ord_inj c1 c2 : ord c1 = ord c2 → c1 = c2.
Proof.
  unfold ord. intros Heq.
  by rewrite <-(ascii_nat_embedding c1), <-(ascii_nat_embedding c2), Heq.
Qed.

Lemma str_compare_eq a b : str_compare a b = Eq → a = b.
Proof.
  unfold str_compare.
  revert b. induction a as [|x a IH]; intros [|y b]; simpl; try done.
  destruct (Nat.compare_spec (ord x) (ord y)) as [Heq| |]; try done.
  intros ->%IH. by rewrite (ord_inj x y Heq).
Qed.

Lemma str_compare_lt_trans a b c :
  str_compare a b = Lt → str_compare b c = Lt → str_compare a c = Lt.
Proof.
  unfold str_compare.
  revert b c. induction a as [|x a IH]; intros [|y b] [|z c]; simpl; try done.
  destruct (Nat.compare_spec (ord x) (ord y)) as [Hxy|Hxy|Hxy];
    destruct (Nat.compare_spec (ord y) (ord z)) as [Hyz|Hyz|Hyz];
    destruct (Nat.compare_spec (ord x) (ord z)) as [Hxz|Hxz|Hxz];
    try done; try lia.
  apply IH.
Qed.

Lemma posix_le_cases a b :
  posix_le a b ↔ str_compare a b = Lt ∨ a = b.
Proof.
  unfold posix_le, name_lt. simpl. rewrite (str_compare_antisym a b).
  destruct (str_compare a b) eqn:Hab; simpl.
  - apply str_compare_eq in Hab. naive_solver.
  - naive_solver.
  - split; [done |]. intros [?| ->]; [done |].
    by rewrite str_compare_refl in Hab.
Qed.

Lemma posix_le_trans : Transitive posix_le.
Proof.
  intros a b c. rewrite !posix_le_cases.
  intros [Hab| ->] [Hbc| ->]; eauto using str_compare_lt_trans.
Qed.

Lemma posix_le_antisymm : AntiSymm (=) posix_le.
Proof.
  intros a b. rewrite !posix_le_cases. intros [Hab|?] [Hba|?]; try done.
  rewrite (str_compare_antisym a b), Hab in Hba. done.
Qed.

(** X15: on POSIX the resolved list does not depend on the order in which
    the directory yields its entries. *)
Theorem gather_pdf_paths_listing_order fs1 fs2 dir names1 names2 :
  fs_flavour fs1 = Posix → fs_flavour fs2 = Posix →
  fs_node fs1 dir = Some (Directory names1) →
  fs_node fs2 dir = Some (Directory names2) →
  names1 ≡ₚ names2 →
  gather_pdf_paths fs1 (Some dir) None = gather_pdf_paths fs2 (Some dir) None.
Proof.
  intros Hf1 Hf2 Hdir1 Hdir2 Hperm.
  rewrite (gather_pdf_paths_names fs1 dir names1 Hdir1).
  rewrite (gather_pdf_paths_names fs2 dir names2 Hdir2).
  rewrite Hf1, Hf2. do 2 f_equal.
  pose proof posix_le_trans. pose proof posix_le_antisymm.
  apply (Sorted_unique posix_le).
  - apply (sorted_Sorted (name_lt Posix)), name_lt_asym.
  - apply (sorted_Sorted (name_lt Posix)), name_lt_asym.
  - rewrite !sorted_Permutation. by rewrite Hperm.
Qed.

Lemma gather_pdf_paths_listing_order_witness :
  gather_pdf_paths (mixed_case_fs Posix) (Some [py "docs"]) None
  = gather_pdf_paths
      (Filesystem Posix (λ _, Some (Directory [py "c.txt"; py "a.PDF"; py "B.pdf"])))
      (Some [py "docs"]) None.
Proof.
  apply (gather_pdf_paths_listing_order _ _ [py "docs"] mixed_case_names
           [py "c.txt"; py "a.PDF"; py "B.pdf"]).
  - reflexivity.
  - reflexivity.
  - reflexivity.
  - reflexivity.
  - by apply (bool_decide_unpack _).
Defined.

(** X16: a directory run reports the files in the resolver's sorted
    order: the file names of the aggregate, in key order, are the names of
    the resolved paths, one key per path. *)
Theorem run_search_directory_order fs dir names paths keywords data :
  fs_node fs dir = Some (Directory names) → NoDup names →
  gather_pdf_paths fs (Some dir) None = Ok paths →
  run_search fs paths keywords = Ok data →
  dict_keys data = path_name <$> paths ∧
  Sorted (λ a b, name_lt (fs_flavour fs) b a = false) (dict_keys data).
Proof.
  intros Hdir Hnd Hpaths Hdata.
  rewrite (gather_pdf_paths_names fs dir names Hdir) in Hpaths.
  set (kept := sorted (name_lt (fs_flavour fs))
                 (filter (λ n, lower (suffix [n]) = py ".pdf") names)) in *.
  assert (paths = (λ n, dir ++ [n]) <$> kept) as -> by congruence. clear Hpaths.
  assert (Hnames : path_name <$> ((λ n, dir ++ [n]) <$> kept) = kept).
  { rewrite <-list_fmap_compose. rewrite <-(list_fmap_id kept) at 2.
    apply list_fmap_ext. intros i n _. unfold path_name. simpl.
    by rewrite last_snoc. }
  apply run_search_spec in Hdata as [Hkeys _].
  rewrite Hkeys, Hnames. rewrite first_occurrences_NoDup.
  - split; [done |]. apply sorted_Sorted, name_lt_asym.
  - unfold kept. rewrite sorted_Permutation. by apply NoDup_filter.
Qed.

Lemma run_search_directory_order_witness :
  dict_keys [(py "damaged.pdf", [(py "invoice", [1; 3])]);
             (py "invoice.pdf", [(py "invoice", [2])])]
  = path_name <$> [damaged_path; invoice_path] ∧
  Sorted (λ a b, name_lt (fs_flavour sample_fs) b a = false)
    (dict_keys [(py "damaged.pdf", [(py "invoice", [1; 3])]);
                (py "invoice.pdf", [(py "invoice", [2])])]).
Proof.
  apply (run_search_directory_order sample_fs [py "pdfs"]
           [py "invoice.pdf"; py "damaged.pdf"] [damaged_path; invoice_path]
           [py "invoice"]).
  - reflexivity.
  - by apply (bool_decide_unpack _).
  - reflexivity.
  - reflexivity.
Defined.

(** ** The command-line driver *)





(** X23: on POSIX a writer whose destination is a directory makes the
    directories above it and then raises [IsADirectoryError]: nothing is
    written. *)
Theorem write_to_directory fs data out_path trace :
  fs_flavour fs = Posix →
  free_way (tree_after fs trace) (path_parent out_path) = true →
  tree_after fs trace out_path = Some Dir →
  write_json fs data out_path trace =
    (Raise IsADirectoryError, trace ++ [Mkdir (path_parent out_path)]) ∧
  write_csv fs data out_path trace =
    (Raise IsADirectoryError, trace ++ [Mkdir (path_parent out_path)]).
Proof.
  intros _ Hway Hdir. pose proof (proj1 (free_way_spec _ _) Hway) as Hfree.
  unfold write_json, write_csv, write_text, write_rows.
  rewrite !mkdir_then_open, mkdir_from_free, Hdir; done.
Qed.

Lemma write_to_directory_witness :
  write_json sample_fs sample_report [py "pdfs"] [] =
    (Raise IsADirectoryError, [] ++ [Mkdir (path_parent [py "pdfs"])]) ∧
  write_csv sample_fs sample_report [py "pdfs"] [] =
    (Raise IsADirectoryError, [] ++ [Mkdir (path_parent [py "pdfs"])]).
Proof.
  apply (write_to_directory sample_fs sample_report [py "pdfs"] []); reflexivity.
Defined.

(** X24: the two reports are not written as one: on POSIX, when the JSON
    destination can be written and the CSV destination is a directory,
    the run raises [IsADirectoryError] after the JSON report is written,
    and the report stays. *)
Theorem main_json_without_csv fs argv args k ks p ps data c :
  fs_flavour fs = Posix →
  parse_args argv = Ok args →
  load_keywords fs (keywords_file args) = Ok (k :: ks) →
  gather_pdf_paths fs (pdf_dir args) (pdf_file args) = Ok (p :: ps) →
  run_search fs (p :: ps) (k :: ks) = Ok data →
  writable (tree_after fs []) (out_json args) = true →
  out_csv args = Some c →
  tree_after fs [] c = Some Dir →
  free_way (tree_after fs []) (path_parent c) = true →
  ¬ out_json args `prefix_of` path_parent c →
  ∃ trace, run fs argv = (Raise IsADirectoryError, trace) ∧
    written_files trace = [out_json args] ∧
    WriteText (out_json args) (json_dumps (report_value data)) ∈ trace.
Proof.
  intros _ Hargs Hkw Hpaths Hdata Hjson Hc Hdir Hway Hjc.
  unfold run, main, lift, print, emit, mbind, io_bind.
  rewrite Hargs, Hkw, Hpaths. cbn [app]. rewrite Hdata.
  unfold write_json, write_text.
  rewrite mkdir_then_open_writable by (by apply (writable_snoc fs [])).
  cbn [app]. rewrite Hc.
  unfold write_csv, write_rows. rewrite mkdir_then_open.
  set (trace := [_; _; _; _]).
  assert (Hdir' : tree_after fs trace c = Some Dir).
  { destruct (is_anchor c) eqn:Hanchor; [by apply tree_after_anchor |].
    assert (c ≠ out_json args) as Hne.
    { intros ->. apply writable_spec in Hjson as [_ Hj]. done. }
    unfold tree_after in *. rewrite Hanchor in *. subst trace. cbn [foldl effect].
    rewrite bool_decide_eq_false_2 by done.
    by case_bool_decide. }
  rewrite mkdir_from_free, Hdir'.
  - eexists. split; [reflexivity |]. split; [reflexivity | set_solver].
  - intros n Hn. cbn [app].
    pose proof (proj1 (free_way_spec _ _) Hway n Hn) as Hfree.
    destruct (is_anchor (take n (path_parent c))) eqn:Hanchor;
      [by rewrite tree_after_anchor |].
    unfold tree_after in *. rewrite Hanchor in *. subst trace. cbn [foldl effect].
    case_bool_decide as Hj; [destruct Hjc; rewrite <-Hj; apply prefix_take |].
    by case_bool_decide.
Qed.

Lemma main_json_without_csv_witness :
  ∃ trace, run sample_fs argv_csv_directory = (Raise IsADirectoryError, trace) ∧
    written_files trace = [out_json args_csv_directory] ∧
    WriteText (out_json args_csv_directory) (json_dumps (report_value report_sample))
      ∈ trace.
Proof.
  apply (main_json_without_csv sample_fs argv_csv_directory args_csv_directory
           (py "Alpha") [py "beta"; py "gamma"] damaged_path [invoice_path]
           report_sample [py "notes"]).
  - reflexivity.
  - reflexivity.
  - reflexivity.
  - reflexivity.
  - reflexivity.
  - reflexivity.
  - reflexivity.
  - reflexivity.
  - reflexivity.
  - by apply (bool_decide_unpack _).
Defined.

(** ** More on the searcher and the reports *)

(** X19: no keyword's page list is longer than the document. *)
Theorem search_pdf_list_length fs file_path pages keywords k :
  PdfReader fs file_path = Ok pages → k ∈ keywords →
  ∃ m ps, search_pdf fs file_path keywords = Ok m ∧ dict_get k m = Some ps ∧
          length ps ≤ length pages.
Proof.
  intros Hopen Hk.
  destruct (search_pdf_spec fs file_path pages keywords Hopen) as (m & Hm & _ & Hv).
  destruct (Hv k Hk) as (ps & Hps & Hs & Hmem).
  exists m, ps. split_and!; [done | done |].
  assert (Hsub : ps ⊆+ seq 1 (length pages)).
  { apply NoDup_submseteq; [by apply StronglySorted_lt_NoDup |].
    intros p (i & Hi & -> & _)%Hmem. apply elem_of_seq. lia. }
  apply submseteq_length in Hsub. by rewrite length_seq in Hsub.
Qed.

Lemma search_pdf_list_length_witness :
  ∃ m ps, search_pdf sample_fs damaged_path [py "invoice"] = Ok m ∧
          dict_get (py "invoice") m = Some ps ∧ length ps ≤ length damaged_pages.
Proof.
  apply (search_pdf_list_length sample_fs damaged_path damaged_pages).
  - reflexivity.
  - left.
Defined.

Lemma first_occurrences_idemp l : first_occurrences (first_occurrences l) = first_occurrences l.
Proof. apply first_occurrences_NoDup, NoDup_first_occurrences. Qed.

(** X20: repeating keywords in the list changes nothing: the result is
    the one for the keywords each kept at its first occurrence. *)
Theorem search_pdf_repeated_keywords fs file_path keywords :
  search_pdf fs file_path keywords = search_pdf fs file_path (first_occurrences keywords).
Proof.
  destruct (PdfReader fs file_path) as [pages|e] eqn:Hopen.
  - destruct (search_pdf_spec fs file_path pages keywords Hopen) as (m & Hm & Hkeys & Hv).
    destruct (search_pdf_spec fs file_path pages (first_occurrences keywords) Hopen)
      as (m' & Hm' & Hkeys' & Hv').
    rewrite Hm, Hm'. f_equal. rewrite first_occurrences_idemp in Hkeys'.
    apply dict_ext; [congruence | rewrite Hkeys; apply NoDup_first_occurrences |].
    intros k Hk. rewrite Hkeys in Hk.
    destruct (Hv k (proj1 (elem_of_first_occurrences k keywords) Hk))
      as (ps & Hps & Hs & Hmem).
    destruct (Hv' k Hk) as (ps' & Hps' & Hs' & Hmem').
    rewrite Hps, Hps'. f_equal. apply sorted_lt_ext; [done | done |].
    intros p. by rewrite Hmem, Hmem'.
  - unfold search_pdf. by rewrite Hopen.
Qed.

(** X21: keywords that come from the loader are never empty, so for them
    a page is in a keyword's list exactly when the keyword occurs, case
    ignored, in the text of the page. *)
Theorem search_pdf_loaded_keywords fs keywords_file file_path keywords pages k :
  load_keywords fs keywords_file = Ok keywords →
  PdfReader fs file_path = Ok pages →
  k ∈ keywords →
  ∃ m ps, search_pdf fs file_path keywords = Ok m ∧ dict_get k m = Some ps ∧
    ∀ i, i + 1 ∈ ps ↔ i < length pages ∧ occurs_ignoring_case k (page_text pages i).
Proof.
  intros Hload Hopen Hk.
  assert (Hne : k ≠ []).
  { destruct (read_text fs keywords_file) as [text|e] eqn:Hread.
    - rewrite (load_keywords_of_text fs keywords_file text Hread) in Hload.
      injection Hload as <-.
      pose proof (keywords_of_text_entries text) as Hall.
      rewrite Forall_forall in Hall. by destruct (Hall k Hk).
    - unfold load_keywords in Hload. by rewrite Hread in Hload. }
  destruct (search_pdf_spec fs file_path pages keywords Hopen) as (m & Hm & _ & Hv).
  destruct (Hv k Hk) as (ps & Hps & _ & Hmem).
  exists m, ps. split_and!; [done | done |].
  intros i. rewrite Hmem. split.
  - intros (j & Hj & Heq & _ & Hocc). assert (i = j) as -> by lia. done.
  - intros [Hi Hocc]. exists i. split_and!; [done | done | | done].
    by apply (occurs_nonempty k).
Qed.

Lemma search_pdf_loaded_keywords_witness :
  ∃ m ps, search_pdf archive_fs [py "ab.pdf"] [py "invoice"; py "terms"] = Ok m ∧
    dict_get (py "terms") m = Some ps ∧
    ∀ i, i + 1 ∈ ps ↔
         i < length (invoice_pages ++ damaged_pages) ∧
         occurs_ignoring_case (py "terms") (page_text (invoice_pages ++ damaged_pages) i).
Proof.
  apply (search_pdf_loaded_keywords archive_fs [py "kw.txt"] [py "ab.pdf"]).
  - reflexivity.
  - reflexivity.
  - right. left.
Defined.

(** X22: the data rows of the CSV report read back, row by row, as the
    entries of the aggregate: file name, keyword and page list, in order. *)
Theorem csv_rows_read_back data :
  ∃ rows, csv_rows data = [py "filename"; py "keyword"; py "pages"] :: rows ∧
          mapM entry_of_row rows = Some (report_entries data).
Proof.
  eexists. split; [apply csv_rows_entries |].
  apply mapM_Some. apply Forall2_fmap_l.
  apply Forall_Forall2_diag, Forall_forall. intros [[f k] ps] _.
  simpl. by rewrite pages_of_csv_pages_csv.
Qed.
